(** * MazeShooter: model loading and drawing (src/model/model.cpp)

    A shallow embedding of [readTexture], [Model::loadModel],
    [Model::processNode], [Model::processMesh], [Model::drawMesh] and
    [Model::draw], with the graphics context, the console and the calls
    made to the shader program recorded in an explicit world state. *)

From Stdlib Require Import ZArith DecimalString.
From stdpp Require Import gmap strings list fin_maps.

Local Open Scope Z_scope.
Local Set Warnings "-register-all,-clear-no-such-hyp".

(** ** Imported scene data (the importer library's structures)

    A C array together with its element count is a list; a pointer that the
    code tests against [nullptr] is an [option]. *)

(** A 32-bit IEEE float, kept as its bit pattern: the code only moves
    floats around, it never computes with them. *)
Definition float32 := Z.

Definition aiVector3D : Type := float32 * float32 * float32.

(** [aiFace]: [mNumIndices] is the length of [mIndices]. *)
Record aiFace := mkFace { mIndices : list Z }.

Definition mNumIndices (f : aiFace) : nat := length (mIndices f).

Definition AI_MAX_NUMBER_OF_TEXTURECOORDS : nat := 8.

Record aiMesh := mkAiMesh {
  mVertices : option (list aiVector3D);
  mNormals : option (list aiVector3D);
  (* one slot per UV channel, a null slot where the channel is absent *)
  mTextureCoords : list (option (list aiVector3D));
  mFaces : list aiFace;
  mMaterialIndex : nat
}.

Definition mNumFaces (m : aiMesh) : nat := length (mFaces m).

(** [aiMesh::GetNumUVChannels]: the number of leading non-null UV channels,
    at most [AI_MAX_NUMBER_OF_TEXTURECOORDS]. *)
Fixpoint count_channels (fuel : nat) (cs : list (option (list aiVector3D))) : nat :=
  match fuel, cs with
  | S fuel', Some _ :: cs' => S (count_channels fuel' cs')
  | _, _ => O
  end.

Definition GetNumUVChannels (m : aiMesh) : nat :=
  count_channels AI_MAX_NUMBER_OF_TEXTURECOORDS (mTextureCoords m).

(** A material, reduced to its stack of diffuse textures: the only thing
    the code asks of it. An [aiString] is its C string. *)
Record aiMaterial := mkMaterial { diffuse : list string }.

(** [material->GetTexture(aiTextureType_DIFFUSE, index, &path)]:
    [Some path] stands for [AI_SUCCESS]. *)
Definition GetTexture_DIFFUSE (m : aiMaterial) (index : nat) : option string :=
  diffuse m !! index.

(** [aiNode]: [mMeshes] holds indices into the scene's mesh array. *)
Inductive aiNode := mkNode {
  mName : string;
  node_mMeshes : list nat;
  mChildren : list aiNode
}.

Definition node_mNumMeshes (n : aiNode) : nat := length (node_mMeshes n).
Definition mNumChildren (n : aiNode) : nat := length (mChildren n).

Record aiScene := mkScene {
  mMeshes : list (option aiMesh);
  mMaterials : list aiMaterial;
  mRootNode : aiNode
}.

Definition mNumMeshes (s : aiScene) : nat := length (mMeshes s).

(** Post-processing flags of the importer (assimp/postprocess.h). *)
Definition aiProcess_CalcTangentSpace : Z := 0x1.
Definition aiProcess_JoinIdenticalVertices : Z := 0x2.
Definition aiProcess_Triangulate : Z := 0x8.
Definition aiProcess_SortByPType : Z := 0x8000.

(** ** The shader program

    [ShaderProgram::a] and [ShaderProgram::u] give the location of a named
    attribute and of a named uniform. *)
Record ShaderProgram := mkShaderProgram {
  a : string -> Z;
  u : string -> Z
}.

(** ** The graphics context *)

Inductive pname :=
  GL_TEXTURE_WRAP_S | GL_TEXTURE_WRAP_T
| GL_TEXTURE_MIN_FILTER | GL_TEXTURE_MAG_FILTER.

Inductive pvalue :=
  GL_CLAMP_TO_EDGE | GL_REPEAT | GL_LINEAR | GL_NEAREST_MIPMAP_LINEAR.

#[global] Instance pname_eq_dec : EqDecision pname.
Proof. solve_decision. Defined.

#[global] Instance pvalue_eq_dec : EqDecision pvalue.
Proof. solve_decision. Defined.

Definition mat4 : Type := list float32.

(** A decoded image: width, height and the RGBA bytes. *)
Record image := mkImage {
  width : Z;
  height : Z;
  pixels : list Z
}.

(** The calls made to the graphics API. Enumerations that the code passes
    as constants ([GL_TEXTURE_2D], [GL_FLOAT], [GL_TRIANGLES],
    [GL_UNSIGNED_INT], [GL_RGBA], [GL_UNSIGNED_BYTE]) are part of the
    constructor; [glActiveTexture (GL_TEXTURE0 + i)] records [i]. *)
Inductive glcall :=
| glActiveTexture (unit : Z)
| glGenTextures (name : Z)      (* the name the context handed out *)
| glBindTexture (tex : Z)
| glTexImage2D (img : image)
| glTexParameteri (p : pname) (v : pvalue)
| glUniformMatrix4fv (loc : Z) (M : mat4)
| glUniform1i (loc : Z) (v : Z)
| glEnableVertexAttribArray (index : Z)
| glDisableVertexAttribArray (index : Z)
| glVertexAttribPointer (index : Z) (size : Z) (ptr : option (list aiVector3D))
| glDrawElements (count : Z) (indices : list Z).

(** What the program does that can be seen from outside, in the order it
    happens: calls to the graphics API, console output, look-ups in the
    shader program, calls to the importer and the image decoder, and the
    entry of the functions that the claims count or order. A node is named
    by its address: the child positions on the way down from the root. *)
Inductive event :=
| EvGL (c : glcall)
| EvCout (line : string)
| EvCerr (line : string)
| EvAttrib (name : string)
| EvUniform (name : string)
| EvReadFile (pFile : string) (flags : Z)
| EvDecode (filename : string)
| EvReadTexture (filename : string)
| EvProcessNode (addr : list nat)
| EvProcessMesh (mesh : option aiMesh).

Record World := mkWorld {
  trace : list event;
  (* texture unit selected by glActiveTexture *)
  active_unit : Z;
  (* texture bound to GL_TEXTURE_2D, per unit; 0 is the default texture *)
  binding : Z -> Z;
  (* parameters of each texture object *)
  tex_param : Z -> pname -> pvalue;
  (* image of each texture object *)
  tex_image : Z -> option image;
  (* the next unused texture name *)
  next_texture : Z;
  (* the vertex attribute arrays that are enabled *)
  enabled : gset Z
}.

Definition emit (e : event) (w : World) : World :=
  mkWorld (trace w ++ [e]) (active_unit w) (binding w) (tex_param w)
          (tex_image w) (next_texture w) (enabled w).

(** A [GLint] passed where the API expects a [GLuint]. *)
Definition to_GLuint (z : Z) : Z := z mod 2 ^ 32.

(** A [size_t] passed where the API expects a [GLsizei] (a signed 32-bit
    integer). *)
Definition to_GLsizei (n : nat) : Z :=
  let r := Z.of_nat n mod 2 ^ 32 in
  if decide (r < 2 ^ 31) then r else r - 2 ^ 32.

(** [operator<<] on an unsigned number and [std::to_string]: decimal digits. *)
Definition to_string (n : nat) : string :=
  NilZero.string_of_uint (Nat.to_uint n).

(** ** The program's own data (model.h): [Mesh] and [Model]

    [Mesh::mesh] is a pointer into the importer's scene (line 94). The
    model keeps the record the pointer refers to; the record stands for the
    pointer as long as the scene is alive. The importer is a local of
    [loadModel] (line 50) and takes its scene with it when the function
    returns, so what is proved of [drawMesh] and [draw] below is proved of
    meshes whose imported record is alive. *)

Record Mesh := mkMesh {
  mesh : aiMesh;                  (* the imported record it was built from *)
  indices : list Z;
  texCoordsAttributes : list Z;
  meshTextures : list Z
}.

Record Model := mkModel {
  shaderprogram : option ShaderProgram;   (* unset before the first load *)
  scene : option aiScene;
  meshes : list Mesh;
  loadedTextures : gmap string Z
}.

(** A [Model] as its constructor leaves it: empty containers. *)
Definition new_Model : Model := mkModel None None [] ∅.

(** The state a method runs in: the outside world and the object. *)
Record State := mkState {
  world : World;
  this : Model
}.

(** Computations on the state; [None] is undefined behaviour (an array read
    out of bounds, a null pointer dereferenced). *)
Definition M (A : Type) : Type := State -> option (A * State).

Definition ret {A} (x : A) : M A := fun s => Some (x, s).

Definition bind {A B} (c : M A) (k : A -> M B) : M B :=
  fun s => match c s with
           | Some (x, s') => k x s'
           | None => None
           end.

Notation "'do' x <- c ; k" := (bind c (fun x => k))
  (at level 10, x name, c at level 100, k at level 200).
Notation "c ;; k" := (bind c (fun _ => k))
  (at level 100, k at level 200, right associativity).

Definition undefined {A} : M A := fun _ => None.

Definition on_world (f : World -> World) : M unit :=
  fun s => Some (tt, mkState (f (world s)) (this s)).

Definition on_this (f : Model -> Model) : M unit :=
  fun s => Some (tt, mkState (world s) (f (this s))).

Definition get_this : M Model := fun s => Some (this s, s).

(** A free function, which sees the world only. *)
Definition call {A} (f : World -> A * World) : M A :=
  fun s => let '(x, w) := f (world s) in Some (x, mkState w (this s)).

(** [array[i]]: reading outside the array is undefined. *)
Definition index {A} (array : list A) (i : nat) : M A :=
  match array !! i with
  | Some x => ret x
  | None => undefined
  end.

(** [for (unsigned int i = 0; i < n; i++) body(i, array[i])], threading a
    local variable [b] through the iterations. *)
Definition for_each {A B} (body : nat -> A -> B -> M B) : nat -> list A -> B -> M B :=
  fix go (i : nat) (array : list A) (b : B) : M B :=
    match array with
    | [] => ret b
    | x :: rest => do b' <- body i x b; go (S i) rest b'
    end.

Definition push_back {A} (v : list A) (x : A) : list A := v ++ [x].

Definition cout (line : string) : M unit := on_world (emit (EvCout line)).
Definition cerr (line : string) : M unit := on_world (emit (EvCerr line)).

(** [shaderprogram->a(name)] and [shaderprogram->u(name)]. *)
Definition sp_a (name : string) : M Z :=
  do m <- get_this;
  match shaderprogram m with
  | Some sp => on_world (emit (EvAttrib name)) ;; ret (a sp name)
  | None => undefined
  end.

Definition sp_u (name : string) : M Z :=
  do m <- get_this;
  match shaderprogram m with
  | Some sp => on_world (emit (EvUniform name)) ;; ret (u sp name)
  | None => undefined
  end.

(** Assignments to the members of the object. *)
Definition set_shaderprogram (sp : ShaderProgram) (m : Model) : Model :=
  mkModel (Some sp) (scene m) (meshes m) (loadedTextures m).

Definition set_scene (sc : option aiScene) (m : Model) : Model :=
  mkModel (shaderprogram m) sc (meshes m) (loadedTextures m).

Definition meshes_push_back (x : Mesh) (m : Model) : Model :=
  mkModel (shaderprogram m) (scene m) (push_back (meshes m) x) (loadedTextures m).

Definition loadedTextures_assign (path : string) (tex : Z) (m : Model) : Model :=
  mkModel (shaderprogram m) (scene m) (meshes m) (<[path := tex]> (loadedTextures m)).

Section Program.

Local Set Default Proof Using "Type".

(** Limits of the graphics implementation. *)
Variable GL_MAX_VERTEX_ATTRIBS : Z.
Variable GL_MAX_TEXTURE_UNITS : Z.

(** [Assimp::Importer::ReadFile], with [GetErrorString] for a file it
    rejects. *)
Variable ReadFile : string -> Z -> aiScene + string.

(** [lodepng::decode]: the error code (0 for success) and the image, and
    [lodepng_error_text]. *)
Variable lodepng_decode : string -> Z * image.
Variable lodepng_error_text : Z -> string.

(** Proofs by propositional reasoning look at the goal and its own
    hypotheses only. *)
Ltac forget_environment :=
  try clear lodepng_error_text; try clear lodepng_decode; try clear ReadFile;
  try clear GL_MAX_TEXTURE_UNITS; try clear GL_MAX_VERTEX_ATTRIBS.

(** The state change of one call; a call with an argument out of range
    raises an error in the context and changes nothing. The state kept is
    what the claims speak of: the selected unit, the bound textures and
    their parameters and images, and the enabled attribute arrays. *)
Definition gl_effect (c : glcall) (w : World) : World :=
  match c with
  | glActiveTexture unit =>
      if decide (0 <= unit < GL_MAX_TEXTURE_UNITS)
      then mkWorld (trace w) unit (binding w) (tex_param w) (tex_image w)
                   (next_texture w) (enabled w)
      else w
  | glGenTextures _ =>
      mkWorld (trace w) (active_unit w) (binding w) (tex_param w)
              (tex_image w) (next_texture w + 1) (enabled w)
  | glBindTexture tex =>
      mkWorld (trace w) (active_unit w)
              (fun unit => if decide (unit = active_unit w) then tex
                           else binding w unit)
              (tex_param w) (tex_image w) (next_texture w) (enabled w)
  | glTexImage2D img =>
      mkWorld (trace w) (active_unit w) (binding w) (tex_param w)
              (fun t => if decide (t = binding w (active_unit w))
                        then Some img else tex_image w t)
              (next_texture w) (enabled w)
  | glTexParameteri p v =>
      mkWorld (trace w) (active_unit w) (binding w)
              (fun t q => if decide (t = binding w (active_unit w) /\ q = p)
                          then v else tex_param w t q)
              (tex_image w) (next_texture w) (enabled w)
  | glEnableVertexAttribArray index =>
      if decide (to_GLuint index < GL_MAX_VERTEX_ATTRIBS)
      then mkWorld (trace w) (active_unit w) (binding w) (tex_param w)
                   (tex_image w) (next_texture w)
                   ({[ to_GLuint index ]} ∪ enabled w)
      else w
  | glDisableVertexAttribArray index =>
      (* an index out of range is never in the set *)
      mkWorld (trace w) (active_unit w) (binding w) (tex_param w)
              (tex_image w) (next_texture w)
              (enabled w ∖ {[ to_GLuint index ]})
  | glUniformMatrix4fv _ _ | glUniform1i _ _
  | glVertexAttribPointer _ _ _ | glDrawElements _ _ => w
  end.

(** Issue one call: the state changes and the call is recorded. *)
Definition gl (c : glcall) (w : World) : World :=
  emit (EvGL c) (gl_effect c w).

Definition glM (c : glcall) : M unit := on_world (gl c).

(** ** [readTexture] (model.cpp, lines 17-46) *)
Definition readTexture (filename : string) (w : World) : Z * World :=
  let w := emit (EvReadTexture filename) w in
  let w := gl (glActiveTexture 0) w in
  let w := emit (EvDecode filename) w in
  let '(error, img) := lodepng_decode filename in
  if decide (error <> 0) then
    let w := emit (EvCerr ("Error loading texture: "
                           +:+ lodepng_error_text error)) w in
    (0, w)
  else
    let w := emit (EvCout ("Texture loaded successfully: " +:+ filename
                           +:+ " (" +:+ to_string (Z.to_nat (width img))
                           +:+ "x" +:+ to_string (Z.to_nat (height img))
                           +:+ ")")) w in
    let tex := next_texture w in
    let w := gl (glGenTextures tex) w in
    let w := gl (glBindTexture tex) w in
    let w := gl (glTexImage2D img) w in
    let w := gl (glTexParameteri GL_TEXTURE_MIN_FILTER GL_LINEAR) w in
    let w := gl (glTexParameteri GL_TEXTURE_MAG_FILTER GL_LINEAR) w in
    (tex, w).

(** ** [Model::processMesh] (lines 87-135) *)
Definition processMesh (pmesh : option aiMesh) (sc : aiScene) : M unit :=
  on_world (emit (EvProcessMesh pmesh)) ;;
  match pmesh with
  | None => cerr "Null mesh encountered."
  | Some pm =>
      do indices <-
        for_each (fun _ face indices =>
          for_each (fun _ idx indices => ret (push_back indices idx))
                   0%nat (mIndices face) indices)
          0%nat (mFaces pm) [];
      do texCoordNames <-
        for_each (fun _ i texCoordNames =>
          do texCoordName <- sp_a ("texCoord" +:+ to_string i);
          ret (push_back texCoordNames texCoordName))
          0%nat (seq 0 (GetNumUVChannels pm)) [];
      do material <- index (mMaterials sc) (mMaterialIndex pm);
      do meshTextures <-
        match GetTexture_DIFFUSE material 0 with
        | Some texturePath =>
            do m <- get_this;
            match loadedTextures m !! texturePath with
            | Some textureID => ret (push_back [] textureID)
            | None =>
                do textureID <- call (readTexture texturePath);
                on_this (loadedTextures_assign texturePath textureID) ;;
                ret (push_back [] textureID)
            end
        | None => ret []
        end;
      on_this (meshes_push_back (mkMesh pm indices texCoordNames meshTextures))
  end.

(** ** [Model::processNode] (lines 75-85) *)
Fixpoint processNode (node : aiNode) (addr : list nat) (sc : aiScene) {struct node} : M unit :=
  on_world (emit (EvProcessNode addr)) ;;
  for_each (fun _ i (_ : unit) =>
      do pmesh <- index (mMeshes sc) i;
      processMesh pmesh sc)
    0%nat (node_mMeshes node) tt ;;
  for_each (fun i child (_ : unit) =>
      processNode child (addr ++ [i]) sc)
    0%nat (mChildren node) tt.

Definition importer_flags : Z :=
  Z.lor (Z.lor (Z.lor aiProcess_CalcTangentSpace aiProcess_Triangulate)
               aiProcess_JoinIdenticalVertices)
        aiProcess_SortByPType.

(** ** [Model::loadModel] (lines 48-73)

    [sp] is a shader program that exists: line 49 stores the pointer without
    a test and line 108 goes through it, so a null [sp] is outside this
    model. The same holds inside a scene for the root node, the child nodes
    (line 77) and the materials (line 115), which are records here and
    pointers that the code never tests there. What the model does make
    undefined is an index outside the scene's mesh array or materials
    array, and a method that needs the program on a Model that has none. *)
Definition loadModel (pFile : string) (sp : ShaderProgram) : M unit :=
  on_this (set_shaderprogram sp) ;;
  on_world (emit (EvReadFile pFile importer_flags)) ;;
  match ReadFile pFile importer_flags with
  | inr error =>
      on_this (set_scene None) ;;
      cerr ("Error loading model: " +:+ error)
  | inl sc =>
      on_this (set_scene (Some sc)) ;;
      cout ("Model loaded successfully: " +:+ pFile) ;;
      if decide (mNumMeshes sc = 0%nat) then
        cerr "No meshes found in the model."
      else
        (* meshes.reserve(scene->mNumMeshes) leaves the content as it is *)
        processNode (mRootNode sc) [] sc ;;
        do m <- get_this;
        cout ("Number of meshes processed: " +:+ to_string (length (meshes m)))
  end.

(** ** [Model::drawMesh] (lines 137-194) *)
Definition drawMesh (pmesh : option Mesh) (Mx : mat4) : M unit :=
  glM (glTexParameteri GL_TEXTURE_WRAP_S GL_CLAMP_TO_EDGE) ;;
  glM (glTexParameteri GL_TEXTURE_WRAP_T GL_CLAMP_TO_EDGE) ;;
  match pmesh with
  | None => cerr "Null mesh encountered during draw."
  | Some pm =>
      glM (glTexParameteri GL_TEXTURE_WRAP_S GL_REPEAT) ;;
      glM (glTexParameteri GL_TEXTURE_WRAP_T GL_REPEAT) ;;
      do locM <- sp_u "M";
      glM (glUniformMatrix4fv locM Mx) ;;
      do v <- sp_a "vertex";
      glM (glEnableVertexAttribArray v) ;;
      do v <- sp_a "vertex";
      glM (glVertexAttribPointer v 3 (mVertices (mesh pm))) ;;
      for_each (fun _ attr (_ : unit) =>
          glM (glEnableVertexAttribArray attr) ;;
          (* mTextureCoords[0], a null pointer when the mesh has no UV channel *)
          glM (glVertexAttribPointer attr 2
                 (default None (mTextureCoords (mesh pm) !! 0%nat))) ;;
          glM (glDisableVertexAttribArray attr))
        0%nat (texCoordsAttributes pm) tt ;;
      for_each (fun i tex (_ : unit) =>
          glM (glActiveTexture (Z.of_nat i)) ;;
          glM (glBindTexture tex) ;;
          do loc <- sp_u ("textureMap" +:+ to_string i);
          glM (glUniform1i loc (Z.of_nat i)))
        0%nat (meshTextures pm) tt ;;
      do n <- sp_a "normal";
      glM (glEnableVertexAttribArray n) ;;
      do n <- sp_a "normal";
      glM (glVertexAttribPointer n 3 (mNormals (mesh pm))) ;;
      glM (glDrawElements (to_GLsizei (length (indices pm))) (indices pm)) ;;
      do v <- sp_a "vertex";
      glM (glDisableVertexAttribArray v) ;;
      do n <- sp_a "normal";
      glM (glDisableVertexAttribArray n)
  end.

(** ** [Model::draw] (lines 196-200) *)
Definition draw (Mx : mat4) : M unit :=
  do m <- get_this;
  for_each (fun _ pm (_ : unit) => drawMesh (Some pm) Mx)
    0%nat (meshes m) tt.

(** ** What the claims speak of *)

(** The parts of a trace. *)
Definition gl_calls (tr : list event) : list glcall :=
  omap (fun e => match e with EvGL c => Some c | _ => None end) tr.

Definition readTexture_calls (tr : list event) : list string :=
  omap (fun e => match e with EvReadTexture f => Some f | _ => None end) tr.

Definition attrib_lookups (tr : list event) : list string :=
  omap (fun e => match e with EvAttrib n => Some n | _ => None end) tr.

Definition cerr_lines (tr : list event) : list string :=
  omap (fun e => match e with EvCerr l => Some l | _ => None end) tr.

(** The walk: the entries of [processNode] and [processMesh]. *)
Definition walk (tr : list event) : list event :=
  omap (fun e => match e with
                 | EvProcessNode _ | EvProcessMesh _ => Some e
                 | _ => None
                 end) tr.

Definition node_visits (tr : list event) : list (list nat) :=
  omap (fun e => match e with EvProcessNode p => Some p | _ => None end) tr.

Definition is_draw_call (c : glcall) : bool :=
  match c with glDrawElements _ _ => true | _ => false end.

Definition draw_calls (tr : list event) : list glcall :=
  filter (fun c => is_draw_call c = true) (gl_calls tr).

(** How often [readTexture] was entered for a path. *)
Definition times_read (path : string) (tr : list event) : nat :=
  length (filter (fun f => f = path) (readTexture_calls tr)).

(** The state of the context after a sequence of calls. *)
Definition gl_replay (calls : list glcall) (w : World) : World :=
  foldl (fun w c => gl_effect c w) w calls.

(** The nodes of a tree, parents before children, children left to right. *)
Definition flat_imap {A B} (f : nat -> A -> list B) : nat -> list A -> list B :=
  fix go (i : nat) (l : list A) : list B :=
    match l with
    | [] => []
    | x :: rest => f i x ++ go (S i) rest
    end.

Fixpoint tree_nodes (node : aiNode) (addr : list nat) : list (list nat * aiNode) :=
  (addr, node)
  :: flat_imap (fun i child => tree_nodes child (addr ++ [i])) 0%nat (mChildren node).

(** The node found at an address below [node], if there is one. *)
Fixpoint subnode (node : aiNode) (addr : list nat) : option aiNode :=
  match addr with
  | [] => Some node
  | i :: addr' =>
      match mChildren node !! i with
      | Some child => subnode child addr'
      | None => None
      end
  end.

(** The mesh indices met by the walk, in the order it meets them. *)
Definition visited_refs (node : aiNode) : list nat :=
  flat_map (fun an => node_mMeshes an.2) (tree_nodes node []).

(** The sum of [mNumMeshes] over the nodes of the tree. *)
Definition sum_mNumMeshes (node : aiNode) : nat :=
  sum_list (map (fun an => node_mNumMeshes an.2) (tree_nodes node [])).

(** The mesh pointers behind a list of indices, the null ones left out. *)
Definition nonnull_meshes (sc : aiScene) (refs : list nat) : list aiMesh :=
  omap (fun i => default None (mMeshes sc !! i)) refs.

(** The diffuse texture path of a mesh's material. *)
Definition texture_path (sc : aiScene) (pm : aiMesh) : option string :=
  match mMaterials sc !! mMaterialIndex pm with
  | Some material => GetTexture_DIFFUSE material 0
  | None => None
  end.

(** A scene in which every index that the walk follows is in range. *)
Definition scene_ok (sc : aiScene) : Prop :=
  Forall (fun i => is_Some (mMeshes sc !! i)) (visited_refs (mRootNode sc))
  /\ Forall (fun pm => is_Some (mMaterials sc !! mMaterialIndex pm))
            (nonnull_meshes sc (visited_refs (mRootNode sc))).

(** The walk as the specification words it: the node itself, then each of
    its meshes, then each child in the given order, the same way. *)
Fixpoint preorder_walk (sc : aiScene) (node : aiNode) (addr : list nat) : list event :=
  EvProcessNode addr
  :: map (fun i => EvProcessMesh (default None (mMeshes sc !! i))) (node_mMeshes node)
  ++ flat_imap (fun i child => preorder_walk sc child (addr ++ [i])) 0%nat (mChildren node).

(** The walk flattened into the steps it takes. *)
Inductive step :=
| StepNode (addr : list nat)
| StepMesh (i : nat).

Fixpoint script (node : aiNode) (addr : list nat) : list step :=
  StepNode addr
  :: map StepMesh (node_mMeshes node)
  ++ flat_imap (fun i child => script child (addr ++ [i])) 0%nat (mChildren node).

Definition run_step (sc : aiScene) (st : step) : M unit :=
  match st with
  | StepNode addr => on_world (emit (EvProcessNode addr))
  | StepMesh i => do pmesh <- index (mMeshes sc) i; processMesh pmesh sc
  end.

Definition run_script (sc : aiScene) (steps : list step) : M unit :=
  for_each (fun _ st (_ : unit) => run_step sc st) 0%nat steps tt.

Definition step_refs (steps : list step) : list nat :=
  omap (fun st => match st with StepMesh i => Some i | _ => None end) steps.

Definition texCoord_name (i : nat) : string := "texCoord" +:+ to_string i.

(** The index sequence and the attribute locations that [processMesh]
    stores for a mesh. *)
Definition flattened (pm : aiMesh) : list Z := concat (map mIndices (mFaces pm)).

Definition texcoord_locations (sp : ShaderProgram) (pm : aiMesh) : list Z :=
  map (fun i => a sp (texCoord_name i)) (seq 0 (GetNumUVChannels pm)).


(** Several events at once. *)
Definition emits (es : list event) (w : World) : World :=
  mkWorld (trace w ++ es) (active_unit w) (binding w) (tex_param w)
          (tex_image w) (next_texture w) (enabled w).


Definition step_event (sc : aiScene) (st : step) : event :=
  match st with
  | StepNode addr => EvProcessNode addr
  | StepMesh i => EvProcessMesh (default None (mMeshes sc !! i))
  end.

(** Steps whose indices are all in range. *)
Definition steps_ok (sc : aiScene) (steps : list step) : Prop :=
  Forall (fun i => is_Some (mMeshes sc !! i)) (step_refs steps)
  /\ Forall (fun pm => is_Some (mMaterials sc !! mMaterialIndex pm))
            (nonnull_meshes sc (step_refs steps)).

(** The paths that the meshes behind a list of indices refer to. *)
Definition referenced_paths (sc : aiScene) (refs : list nat) : list string :=
  omap (texture_path sc) (nonnull_meshes sc refs).

(** What a stored [Mesh] holds for the imported mesh [pm], given the
    texture cache. *)
Definition stored_for (sp : ShaderProgram) (sc : aiScene) (cache : gmap string Z)
    (x : Mesh) (pm : aiMesh) : Prop :=
  mesh x = pm
  /\ indices x = flattened pm
  /\ texCoordsAttributes x = texcoord_locations sp pm
  /\ meshTextures x = match texture_path sc pm with
                      | Some path => option_list (cache !! path)
                      | None => []
                      end.

(** The state after [processMesh] on a mesh that is not null, and after
    one step of the walk, as functions of the state before. *)
Definition mesh_state (sp : ShaderProgram) (sc : aiScene) (pm : aiMesh) (s : State) : State :=
  let w1 := emits (EvProcessMesh (Some pm)
                   :: map (fun i => EvAttrib (texCoord_name i))
                          (seq 0 (GetNumUVChannels pm))) (world s) in
  let stored := mkMesh pm (flattened pm) (texcoord_locations sp pm) in
  match texture_path sc pm with
  | None => mkState w1 (meshes_push_back (stored []) (this s))
  | Some path =>
      match loadedTextures (this s) !! path with
      | Some tex => mkState w1 (meshes_push_back (stored [tex]) (this s))
      | None =>
          let r := readTexture path w1 in
          mkState r.2 (meshes_push_back (stored [r.1])
                         (loadedTextures_assign path r.1 (this s)))
      end
  end.

Definition step_state (sp : ShaderProgram) (sc : aiScene) (st : step) (s : State) : State :=
  match st with
  | StepNode addr => mkState (emits [EvProcessNode addr] (world s)) (this s)
  | StepMesh i =>
      match default None (mMeshes sc !! i) with
      | None => mkState (emits [ EvProcessMesh None;
                                 EvCerr "Null mesh encountered." ] (world s))
                        (this s)
      | Some pm => mesh_state sp sc pm s
      end
  end.

Definition steps_state (sp : ShaderProgram) (sc : aiScene) (steps : list step) (s : State) : State :=
  foldl (fun s st => step_state sp sc st s) s steps.

(** The state after a load that walks the scene [sc]. *)
Definition loaded_state (pFile : string) (sp : ShaderProgram) (sc : aiScene) (s : State) : State :=
  let s0 := mkState (emits [ EvReadFile pFile importer_flags;
                             EvCout ("Model loaded successfully: " +:+ pFile) ]
                       (world s))
                    (set_scene (Some sc) (set_shaderprogram sp (this s))) in
  let s1 := steps_state sp sc (script (mRootNode sc) []) s0 in
  mkState (emits [ EvCout ("Number of meshes processed: "
                           +:+ to_string (length (meshes (this s1)))) ]
             (world s1))
          (this s1).


(** The paths for which [processMesh] has to call the loader. *)
Definition new_loads (sc : aiScene) (cache : gmap string Z) (pm : aiMesh) : list string :=
  match texture_path sc pm with
  | Some path =>
      match cache !! path with
      | Some _ => []
      | None => [path]
      end
  | None => []
  end.

(** The line that [readTexture] writes when the decoder fails. *)
Definition texture_error_line (path : string) : string :=
  "Error loading texture: " +:+ lodepng_error_text (lodepng_decode path).1.


(** The calls of [drawMesh] for one texture-coordinate attribute. *)
Definition texcoord_calls (pm : Mesh) (attr : Z) : list glcall :=
  [ glEnableVertexAttribArray attr;
    glVertexAttribPointer attr 2 (default None (mTextureCoords (mesh pm) !! 0%nat));
    glDisableVertexAttribArray attr ].

(** The calls of [drawMesh] for the textures, from unit [i] on. *)
Definition texture_calls (sp : ShaderProgram) : nat -> list Z -> list glcall :=
  flat_imap (fun i tex =>
    [ glActiveTexture (Z.of_nat i);
      glBindTexture tex;
      glUniform1i (u sp ("textureMap" +:+ to_string i)) (Z.of_nat i) ]).

(** The calls of [drawMesh] that come before the draw call. *)
Definition calls_before_draw (sp : ShaderProgram) (pm : Mesh) (Mx : mat4) : list glcall :=
  [ glTexParameteri GL_TEXTURE_WRAP_S GL_CLAMP_TO_EDGE;
    glTexParameteri GL_TEXTURE_WRAP_T GL_CLAMP_TO_EDGE;
    glTexParameteri GL_TEXTURE_WRAP_S GL_REPEAT;
    glTexParameteri GL_TEXTURE_WRAP_T GL_REPEAT;
    glUniformMatrix4fv (u sp "M") Mx;
    glEnableVertexAttribArray (a sp "vertex");
    glVertexAttribPointer (a sp "vertex") 3 (mVertices (mesh pm)) ]
  ++ flat_map (texcoord_calls pm) (texCoordsAttributes pm)
  ++ texture_calls sp 0%nat (meshTextures pm)
  ++ [ glEnableVertexAttribArray (a sp "normal");
       glVertexAttribPointer (a sp "normal") 3 (mNormals (mesh pm)) ].

Definition calls_after_draw (sp : ShaderProgram) : list glcall :=
  [ glDisableVertexAttribArray (a sp "vertex");
    glDisableVertexAttribArray (a sp "normal") ].

(** What happens in the world at an event: a call to the graphics API
    changes the context, and every event is recorded. *)
Definition perform (e : event) (w : World) : World :=
  match e with
  | EvGL c => gl c w
  | _ => emit e w
  end.

Definition performs (es : list event) (w : World) : World :=
  foldl (fun w e => perform e w) w es.

(** The events of [drawMesh] on a mesh that is not null, in order. *)
Definition texcoord_events (pm : Mesh) (attr : Z) : list event :=
  map EvGL (texcoord_calls pm attr).

Definition texture_events (sp : ShaderProgram) (i : nat) (tex : Z) : list event :=
  [ EvGL (glActiveTexture (Z.of_nat i));
    EvGL (glBindTexture tex);
    EvUniform ("textureMap" +:+ to_string i);
    EvGL (glUniform1i (u sp ("textureMap" +:+ to_string i)) (Z.of_nat i)) ].

Definition drawMesh_events (sp : ShaderProgram) (pm : Mesh) (Mx : mat4) : list event :=
  [ EvGL (glTexParameteri GL_TEXTURE_WRAP_S GL_CLAMP_TO_EDGE);
    EvGL (glTexParameteri GL_TEXTURE_WRAP_T GL_CLAMP_TO_EDGE);
    EvGL (glTexParameteri GL_TEXTURE_WRAP_S GL_REPEAT);
    EvGL (glTexParameteri GL_TEXTURE_WRAP_T GL_REPEAT);
    EvUniform "M";
    EvGL (glUniformMatrix4fv (u sp "M") Mx);
    EvAttrib "vertex";
    EvGL (glEnableVertexAttribArray (a sp "vertex"));
    EvAttrib "vertex";
    EvGL (glVertexAttribPointer (a sp "vertex") 3 (mVertices (mesh pm))) ]
  ++ flat_map (texcoord_events pm) (texCoordsAttributes pm)
  ++ flat_imap (texture_events sp) 0%nat (meshTextures pm)
  ++ [ EvAttrib "normal";
       EvGL (glEnableVertexAttribArray (a sp "normal"));
       EvAttrib "normal";
       EvGL (glVertexAttribPointer (a sp "normal") 3 (mNormals (mesh pm)));
       EvGL (glDrawElements (to_GLsizei (length (indices pm))) (indices pm));
       EvAttrib "vertex";
       EvGL (glDisableVertexAttribArray (a sp "vertex"));
       EvAttrib "normal";
       EvGL (glDisableVertexAttribArray (a sp "normal")) ].

(** The events of [drawMesh] on a null pointer. *)
Definition drawMesh_null_events : list event :=
  [ EvGL (glTexParameteri GL_TEXTURE_WRAP_S GL_CLAMP_TO_EDGE);
    EvGL (glTexParameteri GL_TEXTURE_WRAP_T GL_CLAMP_TO_EDGE);
    EvCerr "Null mesh encountered during draw." ].


(** A computation that leaves the object alone, returns [x] and does [es]
    in the world. *)
Definition does {A} (c : M A) (m : Model) (x : A) (es : list event) : Prop :=
  forall w, c (mkState w m) = Some (x, mkState (performs es w) m).


(** The texture path and the attribute names of the mesh of a step. *)
Definition step_mesh (sc : aiScene) (st : step) : option aiMesh :=
  match st with
  | StepMesh i => default None (mMeshes sc !! i)
  | StepNode _ => None
  end.

Definition step_path (sc : aiScene) (st : step) : option string :=
  match step_mesh sc st with
  | Some pm => texture_path sc pm
  | None => None
  end.

Definition step_lookups (sc : aiScene) (st : step) : list string :=
  match step_mesh sc st with
  | Some pm => map texCoord_name (seq 0 (GetNumUVChannels pm))
  | None => []
  end.


(** Every call of the loader in the trace is accounted for by the cache:
    once for a path that is cached, never for another. *)
Definition cache_accounts_for_loads (s : State) : Prop :=
  forall path,
    times_read path (trace (world s))
    = if decide (is_Some (loadedTextures (this s) !! path)) then 1%nat else 0%nat.

(** The line that a load writes when it gives up. *)
Definition load_failure_line (r : aiScene + string) : string :=
  match r with
  | inr error => "Error loading model: " +:+ error
  | inl _ => "No meshes found in the model."
  end.


(** ** A small scene, to run the definitions on *)

Definition ex_sp : ShaderProgram :=
  mkShaderProgram
    (fun name =>
       if decide (name = "vertex") then 0
       else if decide (name = "normal") then 1
       else if decide (name = "texCoord0") then 2
       else -1)
    (fun name =>
       if decide (name = "M") then 0
       else if decide (name = "textureMap0") then 1
       else -1).

(** A shader program in which the normal attribute shares its location
    with texCoord0. *)
Definition ex_sp_aliased : ShaderProgram :=
  mkShaderProgram
    (fun name =>
       if decide (name = "vertex") then 0
       else if decide (name = "normal") then 2
       else if decide (name = "texCoord0") then 2
       else -1)
    (u ex_sp).

(** Another shader program, whose attributes all have locations of their
    own: here the normal attribute has the location that [ex_sp] gives to
    texCoord0. *)
Definition ex_sp_other : ShaderProgram :=
  mkShaderProgram
    (fun name =>
       if decide (name = "vertex") then 0
       else if decide (name = "texCoord0") then 1
       else if decide (name = "normal") then 2
       else -1)
    (u ex_sp).

Definition ex_square : list aiVector3D :=
  [ (0, 0, 0); (0x3f800000, 0, 0); (0, 0x3f800000, 0); (0x3f800000, 0x3f800000, 0) ].

Definition ex_up : list aiVector3D :=
  [ (0, 0, 0x3f800000); (0, 0, 0x3f800000); (0, 0, 0x3f800000); (0, 0, 0x3f800000) ].

Definition ex_channels : list (option (list aiVector3D)) :=
  [ Some ex_square; None; None; None; None; None; None; None ].

Definition ex_wall : aiMesh :=
  mkAiMesh (Some ex_square) (Some ex_up) ex_channels
           [ mkFace [0; 1; 2]; mkFace [2; 1; 3] ] 0.

Definition ex_floor : aiMesh :=
  mkAiMesh (Some ex_square) (Some ex_up) ex_channels [ mkFace [0; 2; 1] ] 0.

Definition ex_scene : aiScene :=
  mkScene [ Some ex_wall; Some ex_floor ]
          [ mkMaterial ["wall.png"] ]
          (mkNode "root" [0%nat] [ mkNode "floor" [1%nat] [] ]).

Definition ex_ReadFile (pFile : string) (flags : Z) : aiScene + string :=
  if decide (pFile = "maze.obj") then inl ex_scene
  else inr "Unable to open file.".

Definition ex_decode (filename : string) : Z * image :=
  if decide (filename = "wall.png")
  then (0, mkImage 1 1 [255; 255; 255; 255])
  else (78, mkImage 0 0 []).

(** A decoder that finds no file. *)
Definition ex_decode_broken (filename : string) : Z * image :=
  (78, mkImage 0 0 []).

Definition ex_error_text (code : Z) : string :=
  "failed to open file for reading".

(** A context in its initial state, with nothing recorded. *)
Definition ex_world : World :=
  mkWorld [] 0 (fun _ => 0)
          (fun _ p => match p with
                      | GL_TEXTURE_MIN_FILTER => GL_NEAREST_MIPMAP_LINEAR
                      | GL_TEXTURE_MAG_FILTER => GL_LINEAR
                      | _ => GL_REPEAT
                      end)
          (fun _ => None) 1 ∅.

Definition ex_state : State := mkState ex_world new_Model.

Definition ex_identity : mat4 :=
  [ 0x3f800000; 0; 0; 0;  0; 0x3f800000; 0; 0;
    0; 0; 0x3f800000; 0;  0; 0; 0; 0x3f800000 ].

(** A stored mesh whose texture-coordinate list holds location 2. *)
Definition ex_stored : Mesh := mkMesh ex_wall [0; 1; 2; 2; 1; 3] [2] [1].


(** A scene whose only material has no diffuse texture. *)
Definition ex_scene_plain : aiScene :=
  mkScene [ Some ex_wall ] [ mkMaterial [] ] (mkNode "root" [0%nat] []).

(** Three loads on one Model: the small scene, a file that the importer
    rejects, the small scene again. *)
Definition ex_calls : list (string * ShaderProgram) :=
  [ ("maze.obj", ex_sp); ("missing.obj", ex_sp); ("maze.obj", ex_sp) ].


(** A Model whose shader program is set, without meshes and with one. *)
Definition ex_model : Model := mkModel (Some ex_sp) None [] ∅.

Definition ex_model_stored : Model := mkModel (Some ex_sp) None [ex_stored] ∅.

(** The same Model after its shader program has been replaced, as a later
    call of [loadModel] with another program does (line 49): the stored mesh
    keeps the location recorded under [ex_sp]. *)
Definition ex_model_other : Model := mkModel (Some ex_sp_other) None [ex_stored] ∅.


(** A call that sets a texture parameter. *)
Definition is_tex_parameter (c : glcall) : bool :=
  match c with glTexParameteri _ _ => true | _ => false end.

(** A call that uploads an image or hands out a name. *)
Definition is_tex_creation (c : glcall) : bool :=
  match c with glTexImage2D _ | glGenTextures _ => true | _ => false end.

(** A file whose scene, if the importer gives one with meshes, has its
    indices in range. *)
Definition file_ok (pFile : string) : Prop :=
  match ReadFile pFile importer_flags with
  | inl sc => mNumMeshes sc <> 0%nat -> scene_ok sc
  | inr _ => True
  end.


(** A call that selects a unit or binds a texture. *)
Definition is_binding_call (c : glcall) : bool :=
  match c with glActiveTexture _ | glBindTexture _ => true | _ => false end.


(** The calls of [drawMesh] before and after the loop over the textures. *)
Definition calls_before_textures (sp : ShaderProgram) (pm : Mesh) (Mx : mat4) : list glcall :=
  [ glTexParameteri GL_TEXTURE_WRAP_S GL_CLAMP_TO_EDGE;
    glTexParameteri GL_TEXTURE_WRAP_T GL_CLAMP_TO_EDGE;
    glTexParameteri GL_TEXTURE_WRAP_S GL_REPEAT;
    glTexParameteri GL_TEXTURE_WRAP_T GL_REPEAT;
    glUniformMatrix4fv (u sp "M") Mx;
    glEnableVertexAttribArray (a sp "vertex");
    glVertexAttribPointer (a sp "vertex") 3 (mVertices (mesh pm)) ]
  ++ flat_map (texcoord_calls pm) (texCoordsAttributes pm).

Definition calls_after_textures (sp : ShaderProgram) (pm : Mesh) : list glcall :=
  [ glEnableVertexAttribArray (a sp "normal");
    glVertexAttribPointer (a sp "normal") 3 (mNormals (mesh pm));
    glDrawElements (to_GLsizei (length (indices pm))) (indices pm);
    glDisableVertexAttribArray (a sp "vertex");
    glDisableVertexAttribArray (a sp "normal") ].


(** Several loads, one after the other, on the same Model: each with its
    file and its shader program. *)
Definition loads (calls : list (string * ShaderProgram)) : M unit :=
  for_each (fun _ c (_ : unit) => loadModel c.1 c.2) 0%nat calls tt.

(** The second world has the textures that the first one had, unchanged,
    and the same attribute arrays enabled. *)
Definition keeps_textures (w w' : World) : Prop :=
  next_texture w <= next_texture w'
  /\ enabled w' = enabled w
  /\ forall t,
       t < next_texture w ->
       tex_image w' t = tex_image w t
       /\ forall p, tex_param w' t p = tex_param w t p.


(** ** Basic facts: the world *)

Lemma trace_emit e w : trace (emit e w) = trace w ++ [e].
Proof. reflexivity. Qed.

Lemma trace_gl_effect c w : trace (gl_effect c w) = trace w.
Proof. destruct c; simpl; repeat case_decide; reflexivity. Qed.

Lemma trace_gl c w : trace (gl c w) = trace w ++ [EvGL c].
Proof. unfold gl. rewrite trace_emit, trace_gl_effect. reflexivity. Qed.

Lemma emits_nil w : emits [] w = w.
Proof. destruct w; unfold emits; simpl. by rewrite app_nil_r. Qed.

Lemma emit_emits e w : emit e w = emits [e] w.
Proof. reflexivity. Qed.

Lemma emits_emits es1 es2 w : emits es2 (emits es1 w) = emits (es1 ++ es2) w.
Proof. unfold emits; simpl. by rewrite app_assoc. Qed.

Lemma trace_emits es w : trace (emits es w) = trace w ++ es.
Proof. reflexivity. Qed.

(** ** Basic facts: sequencing and loops *)

Lemma bind_Some {A B} (c : M A) (k : A -> M B) s x s' :
  c s = Some (x, s') -> bind c k s = k x s'.
Proof. intros H. unfold bind. by rewrite H. Qed.

Lemma bind_inv {A B} (c : M A) (k : A -> M B) s y s'' :
  bind c k s = Some (y, s'') ->
  exists x s', c s = Some (x, s') /\ k x s' = Some (y, s'').
Proof.
  unfold bind. destruct (c s) as [[x s']|] eqn:E; [|done].
  intros H. by exists x, s'.
Qed.

Lemma for_each_app {A B} (body : nat -> A -> B -> M B) l1 l2 :
  forall i b s,
    for_each body i (l1 ++ l2) b s
    = bind (for_each body i l1 b)
           (fun b' => for_each body (i + length l1)%nat l2 b') s.
Proof.
  induction l1 as [|x l1 IH]; intros i b s; simpl.
  - unfold bind, ret. by rewrite Nat.add_0_r.
  - unfold bind. destruct (body i x b s) as [[b' s']|]; [|done].
    rewrite IH. unfold bind. by rewrite Nat.add_succ_r.
Qed.

(** The body of a loop that ignores its counter. *)
Lemma for_each_shift {A B} (body : A -> B -> M B) l :
  forall i j b s,
    for_each (fun _ => body) i l b s = for_each (fun _ => body) j l b s.
Proof.
  induction l as [|x l IH]; intros i j b s; simpl; [done|].
  unfold bind. destruct (body x b s) as [[b' s']|]; [|done]. apply IH.
Qed.

(** Lines 99-104: the index loops build the concatenation of the faces. *)
Lemma face_loop (idxs : list Z) :
  forall i (acc : list Z) s,
    for_each (fun _ idx acc => ret (push_back acc idx)) i idxs acc s
    = Some (acc ++ idxs, s).
Proof.
  induction idxs as [|x idxs IH]; intros i acc s; simpl.
  - unfold ret. by rewrite app_nil_r.
  - unfold bind, ret at 1. rewrite IH. unfold push_back.
    by rewrite <- app_assoc.
Qed.

Lemma faces_loop (faces : list aiFace) :
  forall i (acc : list Z) s,
    for_each (fun _ face acc =>
        for_each (fun _ idx acc => ret (push_back acc idx))
                 0%nat (mIndices face) acc)
      i faces acc s
    = Some (acc ++ concat (map mIndices faces), s).
Proof.
  induction faces as [|f faces IH]; intros i acc s; simpl.
  - unfold ret. by rewrite app_nil_r.
  - unfold bind. rewrite face_loop, IH. by rewrite <- app_assoc.
Qed.

(** Lines 106-110: one look-up per channel, in channel order. *)
Lemma texcoord_loop sp (ns : list nat) :
  forall i (acc : list Z) w m,
    shaderprogram m = Some sp ->
    for_each (fun _ i acc =>
        do x <- sp_a ("texCoord" +:+ to_string i);
        ret (push_back acc x))
      i ns acc (mkState w m)
    = Some (acc ++ map (fun i => a sp (texCoord_name i)) ns,
            mkState (emits (map (fun i => EvAttrib (texCoord_name i)) ns) w) m).
Proof.
  induction ns as [|n ns IH]; intros i acc w m Hsp; simpl.
  - unfold ret. by rewrite app_nil_r, emits_nil.
  - unfold bind at 1 2. unfold sp_a, bind, get_this. simpl. rewrite Hsp.
    unfold on_world, ret at 1 2. simpl.
    rewrite IH by done. unfold push_back.
    rewrite <- app_assoc, emit_emits, emits_emits. reflexivity.
Qed.

(** ** [readTexture] *)

Lemma readTexture_error filename w :
  (lodepng_decode filename).1 <> 0 ->
  readTexture filename w
  = (0, emits [ EvCerr ("Error loading texture: "
                        +:+ lodepng_error_text (lodepng_decode filename).1) ]
          (emits [ EvDecode filename ]
             (gl (glActiveTexture 0) (emits [ EvReadTexture filename ] w)))).
Proof.
  intros Herr. unfold readTexture.
  destruct (lodepng_decode filename) as [error img]; simpl in *.
  case_decide; [reflexivity | contradiction].
Qed.

Lemma readTexture_success filename w :
  (lodepng_decode filename).1 = 0 ->
  (readTexture filename w).1 = next_texture w.
Proof.
  intros Hok. unfold readTexture.
  destruct (lodepng_decode filename) as [error img]; simpl in *.
  case_decide; [contradiction|]. simpl.
  unfold gl_effect. case_decide; reflexivity.
Qed.

(** What [readTexture] adds to the trace: its own entry, and after it
    nothing that enters a function of the walk, the loader again or the
    shader program. *)
Lemma readTexture_trace filename w :
  exists rest,
    trace (readTexture filename w).2 = trace w ++ EvReadTexture filename :: rest
    /\ readTexture_calls rest = []
    /\ walk rest = []
    /\ attrib_lookups rest = []
    /\ draw_calls rest = [].
Proof.
  unfold readTexture.
  destruct (lodepng_decode filename) as [error img].
  case_decide; cbv zeta; cbn [snd];
    repeat (rewrite trace_gl || rewrite trace_emit);
    rewrite <- !app_assoc; cbn [app];
    eexists; (split; [reflexivity|]); repeat split; reflexivity.
Qed.

(** ** [processMesh] *)

Lemma processMesh_null sc w m :
  processMesh None sc (mkState w m)
  = Some (tt, mkState (emits [ EvProcessMesh None;
                               EvCerr "Null mesh encountered." ] w) m).
Proof.
  unfold processMesh, bind, cerr, on_world. simpl.
  by rewrite !emit_emits, emits_emits.
Qed.

(** The state in which [processMesh] leaves the world and the object. *)
Lemma processMesh_Some sp sc pm material w m :
  shaderprogram m = Some sp ->
  mMaterials sc !! mMaterialIndex pm = Some material ->
  let w1 := emits (EvProcessMesh (Some pm)
                   :: map (fun i => EvAttrib (texCoord_name i))
                          (seq 0 (GetNumUVChannels pm))) w in
  let stored := mkMesh pm (flattened pm) (texcoord_locations sp pm) in
  processMesh (Some pm) sc (mkState w m)
  = Some (tt,
      match GetTexture_DIFFUSE material 0 with
      | None => mkState w1 (meshes_push_back (stored []) m)
      | Some path =>
          match loadedTextures m !! path with
          | Some tex => mkState w1 (meshes_push_back (stored [tex]) m)
          | None =>
              let r := readTexture path w1 in
              mkState r.2 (meshes_push_back (stored [r.1])
                             (loadedTextures_assign path r.1 m))
          end
      end).
Proof.
  intros Hsp Hmat w1 stored. unfold processMesh.
  unfold bind at 1. unfold on_world at 1. simpl.
  unfold bind at 1. rewrite faces_loop. simpl.
  unfold bind at 1. rewrite (texcoord_loop sp) by done. simpl.
  unfold bind at 1. unfold index. rewrite Hmat. unfold ret at 1.
  rewrite emit_emits, emits_emits. simpl. fold w1.
  destruct (GetTexture_DIFFUSE material 0) as [path|]; [|reflexivity].
  unfold bind at 1. unfold bind at 1. unfold get_this. simpl.
  destruct (loadedTextures m !! path) as [tex|] eqn:Hc; [reflexivity|].
  unfold bind, call, on_this, ret. simpl.
  destruct (readTexture path w1) as [h w2]. reflexivity.
Qed.

(** ** The walk, step by step *)

Lemma aiNode_ind_Forall (P : aiNode -> Prop) :
  (forall name ms cs, Forall P cs -> P (mkNode name ms cs)) ->
  forall node, P node.
Proof.
  intros H. fix IH 1. intros [name ms cs]. apply H.
  induction cs as [|c cs IHcs]; constructor; [apply IH | apply IHcs].
Qed.

Lemma bind_ext {A B} (c1 c2 : M A) (k1 k2 : A -> M B) s :
  c1 s = c2 s ->
  (forall x s', k1 x s' = k2 x s') ->
  bind c1 k1 s = bind c2 k2 s.
Proof.
  intros Hc Hk. unfold bind. rewrite Hc.
  destruct (c2 s) as [[x s']|]; [apply Hk | done].
Qed.

Lemma run_mesh_steps sc (ms : list nat) :
  forall i j s,
    for_each (fun _ st (_ : unit) => run_step sc st) i (map StepMesh ms) tt s
    = for_each (fun _ i (_ : unit) =>
          do pmesh <- index (mMeshes sc) i; processMesh pmesh sc) j ms tt s.
Proof.
  induction ms as [|r ms IH]; intros i j s; simpl; [done|].
  apply bind_ext; [done|]. intros [] s'. apply IH.
Qed.

Lemma run_child_steps sc addr (cs : list aiNode) :
  Forall (fun child => forall addr s,
            processNode child addr sc s = run_script sc (script child addr) s) cs ->
  forall i k s,
    for_each (fun _ st (_ : unit) => run_step sc st) i
      (flat_imap (fun i child => script child (addr ++ [i])) k cs) tt s
    = for_each (fun i child (_ : unit) => processNode child (addr ++ [i]) sc)
        k cs tt s.
Proof.
  induction 1 as [|c cs Hc _ IH]; intros i k s; simpl; [done|].
  rewrite for_each_app. apply bind_ext.
  - rewrite Hc. unfold run_script. apply for_each_shift.
  - intros [] s'. apply IH.
Qed.

(** [processNode] runs the steps of [script], one after the other. *)
Lemma processNode_script sc node :
  forall addr s,
    processNode node addr sc s = run_script sc (script node addr) s.
Proof.
  induction node as [name ms cs IH] using aiNode_ind_Forall.
  intros addr s. unfold run_script. simpl.
  apply bind_ext; [done|]. intros [] s1.
  rewrite for_each_app. apply bind_ext.
  - symmetry. apply run_mesh_steps.
  - intros [] s2. symmetry. by apply run_child_steps.
Qed.

Lemma for_each_unit_cons {A} (body : nat -> A -> unit -> M unit) i x l s :
  for_each body i (x :: l) tt s
  = bind (body i x tt) (fun _ => for_each body (S i) l tt) s.
Proof. simpl. apply bind_ext; [done|]. by intros []. Qed.

Lemma shaderprogram_mesh_state sp sc pm s :
  shaderprogram (this (mesh_state sp sc pm s)) = shaderprogram (this s).
Proof.
  unfold mesh_state. destruct (texture_path sc pm) as [path|]; [|done].
  by destruct (loadedTextures (this s) !! path).
Qed.

Lemma shaderprogram_step_state sp sc st s :
  shaderprogram (this (step_state sp sc st s)) = shaderprogram (this s).
Proof.
  destruct st as [addr|i]; simpl; [done|].
  destruct (default None (mMeshes sc !! i)); [|done].
  apply shaderprogram_mesh_state.
Qed.

Lemma run_step_ok sp sc st s :
  shaderprogram (this s) = Some sp ->
  steps_ok sc [st] ->
  run_step sc st s = Some (tt, step_state sp sc st s).
Proof.
  intros Hsp [Hrefs Hmats]. destruct s as [w m]. simpl in Hsp.
  destruct st as [addr|i]; simpl.
  - unfold on_world. simpl. by rewrite emit_emits.
  - unfold step_refs in Hrefs. unfold nonnull_meshes, step_refs in Hmats.
    simpl in Hrefs, Hmats.
    apply Forall_cons in Hrefs as [[pmesh Hi] _].
    rewrite Hi in Hmats. simpl in Hmats.
    unfold bind, index. rewrite Hi. unfold ret. simpl.
    destruct pmesh as [pm|]; [|apply processMesh_null].
    apply Forall_cons in Hmats as [[material Hmat] _].
    rewrite (processMesh_Some sp sc pm material) by done.
    unfold mesh_state, texture_path. rewrite Hmat. reflexivity.
Qed.

Lemma steps_ok_cons sc st steps :
  steps_ok sc (st :: steps) <-> steps_ok sc [st] /\ steps_ok sc steps.
Proof.
  unfold steps_ok, nonnull_meshes.
  change (st :: steps) with ([st] ++ steps).
  unfold step_refs. rewrite !omap_app, !Forall_app. forget_environment; tauto.
Qed.

(** A walk whose indices are in range runs to its end, through the states
    given by [steps_state]. *)
Lemma run_script_ok sp sc steps :
  forall s,
    shaderprogram (this s) = Some sp ->
    steps_ok sc steps ->
    run_script sc steps s = Some (tt, steps_state sp sc steps s).
Proof.
  induction steps as [|st steps IH]; intros s Hsp Hok; [done|].
  apply steps_ok_cons in Hok as [Hst Hok].
  unfold run_script. rewrite for_each_unit_cons.
  rewrite (bind_Some _ _ _ _ _ (run_step_ok sp sc st s Hsp Hst)).
  unfold run_script in IH.
  rewrite for_each_shift with (j := 0%nat).
  rewrite IH; [done| |done].
  by rewrite shaderprogram_step_state.
Qed.

(** ** The parts of a trace, over concatenation *)

Lemma gl_calls_app tr1 tr2 : gl_calls (tr1 ++ tr2) = gl_calls tr1 ++ gl_calls tr2.
Proof. apply omap_app. Qed.

Lemma readTexture_calls_app tr1 tr2 :
  readTexture_calls (tr1 ++ tr2) = readTexture_calls tr1 ++ readTexture_calls tr2.
Proof. apply omap_app. Qed.

Lemma attrib_lookups_app tr1 tr2 :
  attrib_lookups (tr1 ++ tr2) = attrib_lookups tr1 ++ attrib_lookups tr2.
Proof. apply omap_app. Qed.

Lemma cerr_lines_app tr1 tr2 : cerr_lines (tr1 ++ tr2) = cerr_lines tr1 ++ cerr_lines tr2.
Proof. apply omap_app. Qed.

Lemma walk_app tr1 tr2 : walk (tr1 ++ tr2) = walk tr1 ++ walk tr2.
Proof. apply omap_app. Qed.

Lemma node_visits_app tr1 tr2 : node_visits (tr1 ++ tr2) = node_visits tr1 ++ node_visits tr2.
Proof. apply omap_app. Qed.

Lemma draw_calls_app tr1 tr2 : draw_calls (tr1 ++ tr2) = draw_calls tr1 ++ draw_calls tr2.
Proof. unfold draw_calls. by rewrite gl_calls_app, filter_app. Qed.

Lemma times_read_app path tr1 tr2 :
  times_read path (tr1 ++ tr2) = (times_read path tr1 + times_read path tr2)%nat.
Proof.
  unfold times_read. by rewrite readTexture_calls_app, filter_app, length_app.
Qed.

Lemma attrib_events_lookups (names : list string) :
  attrib_lookups (map EvAttrib names) = names.
Proof. induction names as [|n names IH]; simpl; [done|]. by f_equal. Qed.

Lemma attrib_events_other (names : list string) :
  walk (map EvAttrib names) = []
  /\ readTexture_calls (map EvAttrib names) = []
  /\ draw_calls (map EvAttrib names) = []
  /\ cerr_lines (map EvAttrib names) = [].
Proof. induction names as [|n names IH]; simpl; [done|]. apply IH. Qed.

(** ** One mesh *)

(** The events of [processMesh] on a mesh that is not null. *)
Lemma mesh_state_trace sp sc pm s :
  exists rest,
    trace (world (mesh_state sp sc pm s))
    = trace (world s) ++ EvProcessMesh (Some pm) :: rest
    /\ walk rest = []
    /\ attrib_lookups rest = map texCoord_name (seq 0 (GetNumUVChannels pm))
    /\ draw_calls rest = []
    /\ readTexture_calls rest = new_loads sc (loadedTextures (this s)) pm.
Proof.
  unfold mesh_state, new_loads.
  pose proof (attrib_events_other (map texCoord_name (seq 0 (GetNumUVChannels pm))))
    as (Hw & Hr & Hd & _).
  pose proof (attrib_events_lookups (map texCoord_name (seq 0 (GetNumUVChannels pm))))
    as Ha.
  rewrite map_map in Hw, Hr, Hd, Ha.
  destruct (texture_path sc pm) as [path|];
    [destruct (loadedTextures (this s) !! path) as [tex|]|];
    cbv zeta; cbn [world].
  - eexists. split; [reflexivity|]. done.
  - destruct (readTexture_trace path
        (emits (EvProcessMesh (Some pm)
                :: map (fun i => EvAttrib (texCoord_name i))
                       (seq 0 (GetNumUVChannels pm))) (world s)))
      as (rest & Ht & Hr' & Hw' & Ha' & Hd').
    rewrite Ht, trace_emits, <- app_assoc. cbn [app].
    eexists. split; [reflexivity|].
    change (EvReadTexture path :: rest) with ([EvReadTexture path] ++ rest).
    rewrite !walk_app, !attrib_lookups_app, !draw_calls_app, !readTexture_calls_app.
    rewrite Hw, Ha, Hd, Hr, Hw', Ha', Hd', Hr'.
    change (walk [EvReadTexture path]) with (@nil event).
    change (attrib_lookups [EvReadTexture path]) with (@nil string).
    change (draw_calls [EvReadTexture path]) with (@nil glcall).
    change (readTexture_calls [EvReadTexture path]) with [path].
    by rewrite !app_nil_r.
  - eexists. split; [reflexivity|]. done.
Qed.

(** The texture cache after [processMesh]: what it was, and the path of the
    mesh with the handle the loader gave, if the path was not there. *)
Lemma mesh_state_cache sp sc pm s path :
  loadedTextures (this (mesh_state sp sc pm s)) !! path
  = match loadedTextures (this s) !! path with
    | Some tex => Some tex
    | None =>
        if decide (texture_path sc pm = Some path)
        then loadedTextures (this (mesh_state sp sc pm s)) !! path
        else None
    end.
Proof.
  unfold mesh_state.
  destruct (texture_path sc pm) as [path'|] eqn:Hp;
    [destruct (loadedTextures (this s) !! path') as [tex|] eqn:Hc|];
    cbv zeta; cbn [this loadedTextures meshes_push_back loadedTextures_assign].
  - destruct (loadedTextures (this s) !! path) eqn:E; [done|].
    by case_decide.
  - destruct (decide (path' = path)) as [->|Hne].
    + rewrite Hc, lookup_insert_eq. by rewrite decide_True.
    + rewrite lookup_insert_ne by done.
      destruct (loadedTextures (this s) !! path); [done|].
      rewrite decide_False; [done|congruence].
  - destruct (loadedTextures (this s) !! path); [done|].
    by rewrite decide_False.
Qed.

Lemma mesh_state_cache_mono sp sc pm s :
  loadedTextures (this s) ⊆ loadedTextures (this (mesh_state sp sc pm s)).
Proof.
  apply map_subseteq_spec. intros path tex H.
  by rewrite mesh_state_cache, H.
Qed.

Lemma mesh_state_cached sp sc pm s path :
  texture_path sc pm = Some path ->
  is_Some (loadedTextures (this (mesh_state sp sc pm s)) !! path).
Proof.
  intros Hp. unfold mesh_state. rewrite Hp.
  destruct (loadedTextures (this s) !! path) as [tex|] eqn:Hc;
    cbv zeta; cbn [this loadedTextures meshes_push_back loadedTextures_assign].
  - by rewrite Hc.
  - by rewrite lookup_insert_eq.
Qed.

(** A path that was not in the cache and whose file does not decode is
    cached with handle 0, and the error is written. *)
Lemma mesh_state_decode_error sp sc pm s path :
  texture_path sc pm = Some path ->
  loadedTextures (this s) !! path = None ->
  (lodepng_decode path).1 <> 0 ->
  loadedTextures (this (mesh_state sp sc pm s)) !! path = Some 0
  /\ exists tr1 tr2,
       trace (world (mesh_state sp sc pm s))
       = trace (world s) ++ tr1 ++ EvCerr (texture_error_line path) :: tr2.
Proof.
  intros Hp Hc Herr. unfold mesh_state. rewrite Hp, Hc.
  cbv zeta. rewrite readTexture_error by done.
  cbn [this loadedTextures meshes_push_back loadedTextures_assign world fst snd].
  rewrite lookup_insert_eq. split; [done|].
  rewrite !trace_emits, trace_gl, trace_emits, <- !app_assoc. cbn [app].
  exists (EvProcessMesh (Some pm)
          :: map (fun i => EvAttrib (texCoord_name i)) (seq 0 (GetNumUVChannels pm))
          ++ [ EvReadTexture path; EvGL (glActiveTexture 0); EvDecode path ]), [].
  rewrite trace_emits. cbn [app]. by rewrite <- !app_assoc.
Qed.

(** The mesh that [processMesh] stores, after the meshes that were there. *)
Lemma mesh_state_meshes sp sc pm s :
  exists x,
    meshes (this (mesh_state sp sc pm s)) = meshes (this s) ++ [x]
    /\ stored_for sp sc (loadedTextures (this (mesh_state sp sc pm s))) x pm.
Proof.
  unfold mesh_state, stored_for.
  destruct (texture_path sc pm) as [path|];
    [destruct (loadedTextures (this s) !! path) as [tex|] eqn:Hc|];
    cbv zeta;
    cbn [this loadedTextures meshes meshes_push_back loadedTextures_assign];
    eexists; (split; [reflexivity|]); repeat split.
  - by rewrite Hc.
  - by rewrite lookup_insert_eq.
Qed.

(** ** The whole walk *)

Lemma steps_state_cons sp sc st steps s :
  steps_state sp sc (st :: steps) s = steps_state sp sc steps (step_state sp sc st s).
Proof. reflexivity. Qed.

Lemma nonnull_meshes_cons sc i refs :
  nonnull_meshes sc (i :: refs)
  = match default None (mMeshes sc !! i) with
    | Some pm => pm :: nonnull_meshes sc refs
    | None => nonnull_meshes sc refs
    end.
Proof. reflexivity. Qed.

Lemma step_refs_cons_mesh i steps :
  step_refs (StepMesh i :: steps) = i :: step_refs steps.
Proof. reflexivity. Qed.

Lemma step_refs_cons_node addr steps :
  step_refs (StepNode addr :: steps) = step_refs steps.
Proof. reflexivity. Qed.

Lemma step_state_mesh sp sc i s :
  step_state sp sc (StepMesh i) s
  = match default None (mMeshes sc !! i) with
    | None => mkState (emits [ EvProcessMesh None;
                               EvCerr "Null mesh encountered." ] (world s))
                      (this s)
    | Some pm => mesh_state sp sc pm s
    end.
Proof. reflexivity. Qed.

Lemma referenced_paths_cons sc i refs :
  referenced_paths sc (i :: refs)
  = match default None (mMeshes sc !! i) with
    | Some pm =>
        match texture_path sc pm with
        | Some path => path :: referenced_paths sc refs
        | None => referenced_paths sc refs
        end
    | None => referenced_paths sc refs
    end.
Proof.
  unfold referenced_paths. rewrite nonnull_meshes_cons.
  destruct (default None (mMeshes sc !! i)) as [pm|]; [|done].
  simpl. by destruct (texture_path sc pm).
Qed.

Lemma step_state_cache_mono sp sc st s :
  loadedTextures (this s) ⊆ loadedTextures (this (step_state sp sc st s)).
Proof.
  destruct st as [addr|i]; simpl; [done|].
  destruct (default None (mMeshes sc !! i)); [|done].
  apply mesh_state_cache_mono.
Qed.

Lemma steps_state_cache_mono sp sc steps :
  forall s, loadedTextures (this s) ⊆ loadedTextures (this (steps_state sp sc steps s)).
Proof.
  induction steps as [|st steps IH]; intros s; [done|].
  rewrite steps_state_cons. etrans; [apply (step_state_cache_mono sp sc st)|apply IH].
Qed.

Lemma steps_state_shaderprogram sp sc steps :
  forall s, shaderprogram (this (steps_state sp sc steps s)) = shaderprogram (this s).
Proof.
  induction steps as [|st steps IH]; intros s; [done|].
  by rewrite steps_state_cons, IH, shaderprogram_step_state.
Qed.

Lemma scene_mesh_state sp sc pm s :
  scene (this (mesh_state sp sc pm s)) = scene (this s).
Proof.
  unfold mesh_state. destruct (texture_path sc pm) as [path|]; [|done].
  by destruct (loadedTextures (this s) !! path).
Qed.

Lemma steps_state_scene sp sc steps :
  forall s, scene (this (steps_state sp sc steps s)) = scene (this s).
Proof.
  induction steps as [|st steps IH]; intros s; [done|].
  rewrite steps_state_cons, IH. destruct st as [addr|i]; simpl; [done|].
  destruct (default None (mMeshes sc !! i)); [|done]. apply scene_mesh_state.
Qed.

(** The paths in the cache after the walk: those that were there and those
    that a mesh of the walk refers to. *)
Lemma steps_state_cached sp sc steps :
  forall s path,
    is_Some (loadedTextures (this (steps_state sp sc steps s)) !! path)
    <-> is_Some (loadedTextures (this s) !! path)
        \/ path ∈ referenced_paths sc (step_refs steps).
Proof.
  induction steps as [|st steps IH]; intros s path.
  - simpl. unfold referenced_paths. simpl. rewrite elem_of_nil. forget_environment; tauto.
  - rewrite steps_state_cons, IH. destruct st as [addr|i]; [done|].
    rewrite step_refs_cons_mesh, referenced_paths_cons, step_state_mesh.
    destruct (default None (mMeshes sc !! i)) as [pm|]; [|done].
    rewrite mesh_state_cache.
    pose proof (mesh_state_cached sp sc pm s) as Hcached.
    destruct (texture_path sc pm) as [path'|] eqn:Hp.
    + rewrite elem_of_cons.
      destruct (loadedTextures (this s) !! path) as [tex|] eqn:Hc.
      * split; [intros _|]; eauto.
      * case_decide as Hd.
        -- assert (path' = path) as -> by congruence.
           specialize (Hcached path eq_refl). forget_environment; tauto.
        -- split; [intros [[? ?]|?]; [done|by auto]|].
           intros [[? ?]|[->|?]]; [done|congruence|by auto].
    + destruct (loadedTextures (this s) !! path) as [tex|] eqn:Hc; [done|].
      rewrite decide_False by done. done.
Qed.

Lemma stored_for_mono sp sc cache1 cache2 x pm :
  stored_for sp sc cache1 x pm ->
  (forall path, texture_path sc pm = Some path -> is_Some (cache1 !! path)) ->
  cache1 ⊆ cache2 ->
  stored_for sp sc cache2 x pm.
Proof.
  intros (H1 & H2 & H3 & H4) Hin Hsub. repeat split; try done.
  rewrite H4. destruct (texture_path sc pm) as [path|]; [|done].
  destruct (Hin path eq_refl) as [tex Hc].
  rewrite Hc. by rewrite (lookup_weaken _ _ _ _ Hc Hsub).
Qed.

(** The meshes after the walk: those that were there, and after them one
    for every mesh pointer of the walk that is not null, in the order of
    the walk. *)
Lemma steps_state_meshes sp sc steps :
  forall s, exists new,
    meshes (this (steps_state sp sc steps s)) = meshes (this s) ++ new
    /\ Forall2 (stored_for sp sc (loadedTextures (this (steps_state sp sc steps s))))
               new (nonnull_meshes sc (step_refs steps)).
Proof.
  induction steps as [|st steps IH]; intros s.
  - exists []. split; [by rewrite app_nil_r|constructor].
  - rewrite steps_state_cons.
    destruct (IH (step_state sp sc st s)) as (new & Hm & Hst).
    destruct st as [addr|i]; [by exists new|].
    change (step_refs (StepMesh i :: steps)) with (i :: step_refs steps).
    rewrite nonnull_meshes_cons. simpl in *.
    destruct (default None (mMeshes sc !! i)) as [pm|]; [|by exists new].
    destruct (mesh_state_meshes sp sc pm s) as (x & Hx & Hsx).
    exists (x :: new). split.
    + rewrite Hm, Hx, <- app_assoc. done.
    + constructor; [|done].
      eapply stored_for_mono; [exact Hsx| |apply steps_state_cache_mono].
      intros path. apply mesh_state_cached.
Qed.

Lemma nonnull_meshes_step sc st steps :
  nonnull_meshes sc (step_refs (st :: steps))
  = option_list (step_mesh sc st) ++ nonnull_meshes sc (step_refs steps).
Proof.
  destruct st as [addr|i]; [done|].
  rewrite step_refs_cons_mesh, nonnull_meshes_cons. unfold step_mesh.
  by destruct (default None (mMeshes sc !! i)).
Qed.

Lemma referenced_paths_step sc st steps :
  referenced_paths sc (step_refs (st :: steps))
  = option_list (step_path sc st) ++ referenced_paths sc (step_refs steps).
Proof.
  destruct st as [addr|i]; [done|].
  rewrite step_refs_cons_mesh, referenced_paths_cons.
  unfold step_path, step_mesh.
  destruct (default None (mMeshes sc !! i)) as [pm|]; [|done].
  by destruct (texture_path sc pm).
Qed.

(** The events of one step. The loader is called if the mesh of the step
    has a path that is not in the cache, and then once. *)
Lemma step_state_trace sp sc st s :
  exists new,
    trace (world (step_state sp sc st s)) = trace (world s) ++ new
    /\ walk new = [step_event sc st]
    /\ draw_calls new = []
    /\ attrib_lookups new = step_lookups sc st
    /\ NoDup (readTexture_calls new)
    /\ forall path,
         path ∈ readTexture_calls new
         <-> loadedTextures (this s) !! path = None
             /\ step_path sc st = Some path.
Proof.
  destruct st as [addr|i].
  - exists [EvProcessNode addr].
    change (readTexture_calls [EvProcessNode addr]) with (@nil string).
    split; [done|]. split; [done|]. split; [done|]. split; [done|].
    split; [constructor|]. intros path.
    split; [by intros ?%elem_of_nil|by intros [_ ?]].
  - rewrite step_state_mesh. unfold step_lookups, step_path, step_mesh, step_event.
    destruct (default None (mMeshes sc !! i)) as [pm|].
    + destruct (mesh_state_trace sp sc pm s) as (rest & Ht & Hw & Ha & Hd & Hr).
      exists ([EvProcessMesh (Some pm)] ++ rest). split; [done|].
      rewrite walk_app, draw_calls_app, attrib_lookups_app, readTexture_calls_app.
      rewrite Hw, Ha, Hd, Hr.
      change (walk [EvProcessMesh (Some pm)]) with [EvProcessMesh (Some pm)].
      change (draw_calls [EvProcessMesh (Some pm)]) with (@nil glcall).
      change (attrib_lookups [EvProcessMesh (Some pm)]) with (@nil string).
      change (readTexture_calls [EvProcessMesh (Some pm)]) with (@nil string).
      rewrite !app_nil_l, app_nil_r.
      split; [done|]. split; [done|]. split; [done|].
      unfold new_loads.
      destruct (texture_path sc pm) as [path'|];
        [destruct (loadedTextures (this s) !! path') as [tex|] eqn:Hc|].
      * split; [constructor|]. intros path. split; [by intros ?%elem_of_nil|].
        intros [Hn Hp]. congruence.
      * split; [apply NoDup_singleton|]. intros path.
        rewrite list_elem_of_singleton. split; [by intros ->|].
        intros [_ Hp]. congruence.
      * split; [constructor|]. intros path. split; [by intros ?%elem_of_nil|].
        by intros [_ ?].
    + exists [EvProcessMesh None; EvCerr "Null mesh encountered."].
      change (readTexture_calls [EvProcessMesh None; EvCerr _]) with (@nil string).
      split; [done|]. split; [done|]. split; [done|]. split; [done|].
      split; [constructor|]. intros path.
      split; [by intros ?%elem_of_nil|by intros [_ ?]].
Qed.

(** A path is missing from the cache after a step if it was missing before
    and is not the path of the step's mesh. *)
Lemma step_state_uncached sp sc st s path :
  loadedTextures (this (step_state sp sc st s)) !! path = None
  <-> loadedTextures (this s) !! path = None /\ step_path sc st <> Some path.
Proof.
  destruct st as [addr|i]; [by split; [intros ?|intros [? _]]|].
  rewrite step_state_mesh. unfold step_path, step_mesh.
  destruct (default None (mMeshes sc !! i)) as [pm|];
    [|by split; [intros ?|intros [? _]]].
  rewrite mesh_state_cache.
  pose proof (mesh_state_cached sp sc pm s path) as Hcached.
  destruct (loadedTextures (this s) !! path) as [tex|].
  - split; [done|by intros [? _]].
  - case_decide as Hd.
    + destruct (Hcached Hd) as [tex Htex]. rewrite Htex. split; [done|].
      by intros [_ ?].
    + done.
Qed.

(** The events of the whole walk. The loader is called once for each path
    that a mesh of the walk refers to and that was not in the cache. *)
Lemma steps_state_trace sp sc steps :
  forall s, exists new,
    trace (world (steps_state sp sc steps s)) = trace (world s) ++ new
    /\ walk new = map (step_event sc) steps
    /\ draw_calls new = []
    /\ attrib_lookups new
       = flat_map (fun pm => map texCoord_name (seq 0 (GetNumUVChannels pm)))
                  (nonnull_meshes sc (step_refs steps))
    /\ NoDup (readTexture_calls new)
    /\ forall path,
         path ∈ readTexture_calls new
         <-> loadedTextures (this s) !! path = None
             /\ path ∈ referenced_paths sc (step_refs steps).
Proof.
  induction steps as [|st steps IH]; intros s.
  - exists []. rewrite app_nil_r.
    change (readTexture_calls []) with (@nil string).
    split; [done|]. split; [done|]. split; [done|]. split; [done|].
    split; [constructor|]. intros path.
    split; [by intros ?%elem_of_nil|by intros [_ ?%elem_of_nil]].
  - rewrite steps_state_cons.
    destruct (step_state_trace sp sc st s)
      as (new1 & Ht1 & Hw1 & Hd1 & Ha1 & Hnd1 & Hin1).
    destruct (IH (step_state sp sc st s))
      as (new2 & Ht2 & Hw2 & Hd2 & Ha2 & Hnd2 & Hin2).
    exists (new1 ++ new2).
    rewrite Ht2, Ht1, <- app_assoc.
    rewrite walk_app, draw_calls_app, attrib_lookups_app, readTexture_calls_app.
    rewrite Hw1, Hw2, Hd1, Hd2, Ha1, Ha2.
    rewrite nonnull_meshes_step, referenced_paths_step, flat_map_app.
    split; [done|]. split; [done|]. split; [done|].
    split; [|split].
    + f_equal. unfold step_lookups. destruct (step_mesh sc st); simpl; [|done].
      by rewrite app_nil_r.
    + apply NoDup_app. split; [done|]. split; [|done].
      intros path [_ Hp]%Hin1 [Hn _]%Hin2.
      apply step_state_uncached in Hn as [_ Hn]. done.
    + intros path. rewrite !elem_of_app, Hin1, Hin2, step_state_uncached.
      destruct (step_path sc st) as [path'|]; simpl.
      * rewrite list_elem_of_singleton. split.
        -- intros [[? [= ->]]|[[? ?] ?]]; by auto.
        -- intros [Hn [->|Hp]]; [by left|].
           destruct (decide (path' = path)) as [->|Hne]; [by left|].
           right. split; [|done]. split; [done|]. congruence.
      * rewrite elem_of_nil. split.
        -- intros [[_ ?]|[[? _] ?]]; [done|by auto].
        -- intros [? [?|?]]; [done|]. by right.
Qed.

Lemma step_state_decode_error sp sc st s path :
  step_path sc st = Some path ->
  loadedTextures (this s) !! path = None ->
  (lodepng_decode path).1 <> 0 ->
  loadedTextures (this (step_state sp sc st s)) !! path = Some 0
  /\ exists tr1 tr2,
       trace (world (step_state sp sc st s))
       = trace (world s) ++ tr1 ++ EvCerr (texture_error_line path) :: tr2.
Proof.
  destruct st as [addr|i]; [done|].
  rewrite step_state_mesh. unfold step_path, step_mesh.
  destruct (default None (mMeshes sc !! i)) as [pm|]; [|done].
  apply mesh_state_decode_error.
Qed.

(** A path of the walk that was not in the cache and whose file does not
    decode ends up cached with handle 0, and the error is written. *)
Lemma steps_state_decode_error sp sc steps :
  forall s path,
    path ∈ referenced_paths sc (step_refs steps) ->
    loadedTextures (this s) !! path = None ->
    (lodepng_decode path).1 <> 0 ->
    loadedTextures (this (steps_state sp sc steps s)) !! path = Some 0
    /\ exists tr1 tr2,
         trace (world (steps_state sp sc steps s))
         = trace (world s) ++ tr1 ++ EvCerr (texture_error_line path) :: tr2.
Proof.
  induction steps as [|st steps IH]; intros s path Hin Hc Herr.
  - by apply elem_of_nil in Hin.
  - rewrite steps_state_cons.
    rewrite referenced_paths_step in Hin. apply elem_of_app in Hin.
    destruct (steps_state_trace sp sc steps (step_state sp sc st s))
      as (new2 & Ht2 & _).
    destruct (decide (step_path sc st = Some path)) as [Hp|Hp].
    + destruct (step_state_decode_error sp sc st s path Hp Hc Herr)
        as (H0 & tr1 & tr2 & Ht).
      split.
      * eapply lookup_weaken; [exact H0|apply steps_state_cache_mono].
      * exists tr1, (tr2 ++ new2).
        rewrite Ht2, Ht, <- !app_assoc. by rewrite <- app_comm_cons.
    + destruct Hin as [Hin|Hin].
      { destruct (step_path sc st) as [path'|]; simpl in Hin.
        - apply list_elem_of_singleton in Hin. congruence.
        - by apply elem_of_nil in Hin. }
      destruct (step_state_trace sp sc st s) as (new1 & Ht1 & _).
      assert (Hc' : loadedTextures (this (step_state sp sc st s)) !! path = None)
        by (by apply step_state_uncached).
      destruct (IH _ path Hin Hc' Herr) as (H0 & tr1 & tr2 & Ht).
      split; [done|]. exists (new1 ++ tr1), tr2.
      by rewrite Ht, Ht1, <- !app_assoc.
Qed.

(** ** Drawing *)

Lemma performs_app es1 es2 w :
  performs (es1 ++ es2) w = performs es2 (performs es1 w).
Proof. apply foldl_app. Qed.

Lemma gl_effect_emits c es w :
  gl_effect c (emits es w) = emits es (gl_effect c w).
Proof. destruct c; simpl; repeat case_decide; reflexivity. Qed.

Lemma gl_replay_emits calls es :
  forall w, gl_replay calls (emits es w) = emits es (gl_replay calls w).
Proof.
  induction calls as [|c calls IH]; intros w; simpl; [done|].
  by rewrite gl_effect_emits, IH.
Qed.

Lemma gl_replay_app calls1 calls2 w :
  gl_replay (calls1 ++ calls2) w = gl_replay calls2 (gl_replay calls1 w).
Proof. apply foldl_app. Qed.

(** The world after some events: the context after the calls among them,
    and the events recorded. *)
Lemma performs_replay es :
  forall w, performs es w = emits es (gl_replay (gl_calls es) w).
Proof.
  induction es as [|e es IH]; intros w; simpl.
  - by rewrite emits_nil.
  - rewrite IH. destruct e; simpl;
      rewrite ?emit_emits, ?gl_replay_emits, ?emits_emits; try reflexivity.
    unfold gl. by rewrite emit_emits, gl_replay_emits, emits_emits.
Qed.

Lemma trace_performs es w : trace (performs es w) = trace w ++ es.
Proof.
  rewrite performs_replay, trace_emits. f_equal.
  generalize (gl_calls es). intros calls. revert w.
  induction calls as [|c calls IH]; intros w; simpl; [done|].
  by rewrite IH, trace_gl_effect.
Qed.

Lemma does_ret {A} (x : A) m : does (ret x) m x [].
Proof. by intros w. Qed.

Lemma does_bind {A B} (c : M A) (k : A -> M B) m x y es1 es2 :
  does c m x es1 -> does (k x) m y es2 -> does (bind c k) m y (es1 ++ es2).
Proof.
  intros Hc Hk w. unfold bind. by rewrite Hc, Hk, performs_app.
Qed.

Lemma does_glM c m : does (glM c) m tt [EvGL c].
Proof. by intros w. Qed.

Lemma does_cerr line m : does (cerr line) m tt [EvCerr line].
Proof. by intros w. Qed.

Lemma does_cout line m : does (cout line) m tt [EvCout line].
Proof. by intros w. Qed.

Lemma does_sp_a sp name m :
  shaderprogram m = Some sp -> does (sp_a name) m (a sp name) [EvAttrib name].
Proof.
  intros Hsp w. unfold sp_a, bind, get_this. simpl. by rewrite Hsp.
Qed.

Lemma does_sp_u sp name m :
  shaderprogram m = Some sp -> does (sp_u name) m (u sp name) [EvUniform name].
Proof.
  intros Hsp w. unfold sp_u, bind, get_this. simpl. by rewrite Hsp.
Qed.

Lemma does_for_each {A} (body : nat -> A -> unit -> M unit)
    (evs : nat -> A -> list event) m l :
  (forall i x, does (body i x tt) m tt (evs i x)) ->
  forall i, does (for_each body i l tt) m tt (flat_imap evs i l).
Proof.
  intros Hbody. induction l as [|x l IH]; intros i; simpl.
  - apply does_ret.
  - eapply does_bind; [apply Hbody|]. apply IH.
Qed.

Lemma does_eq {A} (c : M A) m x es es' :
  does c m x es -> es = es' -> does c m x es'.
Proof. by intros H <-. Qed.

Lemma flat_imap_const {A B} (f : A -> list B) l :
  forall i, flat_imap (fun _ => f) i l = flat_map f l.
Proof. induction l as [|x l IH]; intros i; simpl; [done|]. by rewrite IH. Qed.

(** [drawMesh] on a mesh does the events of [drawMesh_events], and nothing
    else. *)
Lemma drawMesh_Some sp pm Mx m :
  shaderprogram m = Some sp ->
  does (drawMesh (Some pm) Mx) m tt (drawMesh_events sp pm Mx).
Proof.
  intros Hsp. unfold drawMesh.
  eapply does_eq.
  - repeat first
      [ apply does_glM
      | apply (does_sp_a sp); exact Hsp
      | apply (does_sp_u sp); exact Hsp
      | (eapply does_for_each; intros ? ?)
      | eapply does_bind ].
  - rewrite flat_imap_const. reflexivity.
Qed.

Lemma drawMesh_null Mx m : does (drawMesh None Mx) m tt drawMesh_null_events.
Proof.
  unfold drawMesh. eapply does_eq.
  - repeat first [ apply does_glM | apply does_cerr | eapply does_bind ].
  - reflexivity.
Qed.

(** [draw] draws the meshes one after the other, in storage order. *)
Lemma draw_does sp Mx m :
  shaderprogram m = Some sp ->
  does (draw Mx) m tt (flat_map (fun pm => drawMesh_events sp pm Mx) (meshes m)).
Proof.
  intros Hsp w. unfold draw, bind, get_this. cbn [this].
  rewrite <- (flat_imap_const _ _ 0%nat).
  apply (does_for_each _ (fun _ pm => drawMesh_events sp pm Mx)).
  intros _ pm. by apply drawMesh_Some.
Qed.

Lemma draw_empty Mx w m :
  meshes m = [] -> draw Mx (mkState w m) = Some (tt, mkState w m).
Proof. intros Hm. unfold draw, bind, get_this. cbn [this]. by rewrite Hm. Qed.

Lemma gl_calls_texcoords pm attrs :
  gl_calls (flat_map (texcoord_events pm) attrs) = flat_map (texcoord_calls pm) attrs.
Proof.
  induction attrs as [|x attrs IH]; [done|].
  cbn [flat_map]. rewrite gl_calls_app, IH. reflexivity.
Qed.

Lemma gl_calls_textures sp texs :
  forall i, gl_calls (flat_imap (texture_events sp) i texs) = texture_calls sp i texs.
Proof.
  induction texs as [|x texs IH]; intros i; [done|].
  cbn [flat_imap]. rewrite gl_calls_app, IH. reflexivity.
Qed.

(** The calls of [drawMesh]: those before the draw call, the draw call,
    those after it. *)
Lemma gl_calls_drawMesh sp pm Mx :
  gl_calls (drawMesh_events sp pm Mx)
  = calls_before_draw sp pm Mx
    ++ glDrawElements (to_GLsizei (length (indices pm))) (indices pm)
    :: calls_after_draw sp.
Proof.
  unfold drawMesh_events, calls_before_draw.
  rewrite !gl_calls_app, gl_calls_texcoords, gl_calls_textures.
  rewrite <- !app_assoc. reflexivity.
Qed.

Lemma draw_calls_texcoords pm attrs :
  filter (fun c => is_draw_call c = true) (flat_map (texcoord_calls pm) attrs) = [].
Proof. induction attrs as [|x attrs IH]; [done|]. simpl. exact IH. Qed.

Lemma draw_calls_textures sp texs :
  forall i, filter (fun c => is_draw_call c = true) (texture_calls sp i texs) = [].
Proof. induction texs as [|x texs IH]; intros i; [done|]. simpl. apply IH. Qed.

(** No draw call is issued before the one of line 179. *)
Lemma no_draw_before sp pm Mx :
  filter (fun c => is_draw_call c = true) (calls_before_draw sp pm Mx) = [].
Proof.
  unfold calls_before_draw.
  rewrite !filter_app, draw_calls_texcoords, draw_calls_textures. reflexivity.
Qed.

(** The loop of lines 157-163 leaves every location it went through
    disabled. *)
Lemma enabled_texcoords pm attrs :
  forall w,
    enabled (gl_replay (flat_map (texcoord_calls pm) attrs) w)
    = enabled w ∖ list_to_set (to_GLuint <$> attrs).
Proof.
  induction attrs as [|x attrs IH]; intros w.
  - simpl. (forget_environment; set_solver).
  - cbn [flat_map]. rewrite gl_replay_app, IH. simpl.
    case_decide; simpl; (forget_environment; set_solver).
Qed.

Lemma enabled_textures sp texs :
  forall i w, enabled (gl_replay (texture_calls sp i texs) w) = enabled w.
Proof.
  induction texs as [|x texs IH]; intros i w; [done|].
  unfold texture_calls. cbn [flat_imap]. rewrite gl_replay_app.
  fold (texture_calls sp (S i) texs). rewrite IH. simpl.
  by case_decide.
Qed.

(** At the draw call, a location of the texture-coordinate list is enabled
    exactly when it is the location of the normal attribute and that
    location is one the context accepts. *)
Lemma texcoord_enabled_at_draw sp pm Mx w attr :
  attr ∈ texCoordsAttributes pm ->
  to_GLuint attr ∈ enabled (gl_replay (calls_before_draw sp pm Mx) w)
  <-> to_GLuint attr = to_GLuint (a sp "normal")
      /\ to_GLuint (a sp "normal") < GL_MAX_VERTEX_ATTRIBS.
Proof.
  intros Hin.
  assert (Hl : to_GLuint attr
               ∈ (list_to_set (to_GLuint <$> texCoordsAttributes pm) : gset Z)).
  { apply elem_of_list_to_set. by apply list_elem_of_fmap_2. }
  unfold calls_before_draw. rewrite !gl_replay_app. simpl.
  case_decide; simpl; rewrite enabled_textures, enabled_texcoords;
    (forget_environment; set_solver).
Qed.

(** ** The tree and its script *)

Lemma step_refs_app steps1 steps2 :
  step_refs (steps1 ++ steps2) = step_refs steps1 ++ step_refs steps2.
Proof. apply omap_app. Qed.

Lemma step_refs_meshes ms : step_refs (map StepMesh ms) = ms.
Proof. induction ms as [|i ms IH]; [done|]. simpl. by f_equal. Qed.

Lemma script_refs node :
  forall addr,
    step_refs (script node addr)
    = flat_map (fun an => node_mMeshes an.2) (tree_nodes node addr).
Proof.
  induction node as [name ms cs IH] using aiNode_ind_Forall.
  intros addr. cbn [script tree_nodes flat_map mChildren node_mMeshes snd].
  change (StepNode addr :: ?l) with ([StepNode addr] ++ l).
  rewrite !step_refs_app, step_refs_meshes. simpl. f_equal.
  generalize 0%nat. induction IH as [|c cs Hc _ IHcs]; intros k; [done|].
  cbn [flat_imap]. by rewrite step_refs_app, flat_map_app, Hc, IHcs.
Qed.

Lemma scene_ok_steps sc : scene_ok sc <-> steps_ok sc (script (mRootNode sc) []).
Proof. unfold scene_ok, steps_ok, visited_refs. by rewrite script_refs. Qed.

Lemma script_walk sc node :
  forall addr, map (step_event sc) (script node addr) = preorder_walk sc node addr.
Proof.
  induction node as [name ms cs IH] using aiNode_ind_Forall.
  intros addr. cbn [script preorder_walk mChildren node_mMeshes map step_event].
  f_equal. rewrite map_app, map_map. f_equal.
  generalize 0%nat. induction IH as [|c cs Hc _ IHcs]; intros k; [done|].
  cbn [flat_imap]. by rewrite map_app, Hc, IHcs.
Qed.

Lemma sum_list_length_flat_map {A B} (f : A -> list B) l :
  sum_list (map (fun x => length (f x)) l) = length (flat_map f l).
Proof.
  induction l as [|x l IH]; [done|]. simpl. by rewrite length_app, IH.
Qed.

(** The sum of [mNumMeshes] over the nodes is the number of mesh indices
    that the walk meets. *)
Lemma sum_mNumMeshes_refs node :
  sum_mNumMeshes node = length (visited_refs node).
Proof. apply (sum_list_length_flat_map (fun an => node_mMeshes an.2)). Qed.

Lemma nonnull_meshes_length sc refs :
  Forall (fun i => exists pm, mMeshes sc !! i = Some (Some pm)) refs ->
  length (nonnull_meshes sc refs) = length refs.
Proof.
  induction 1 as [|i refs [pm Hi] _ IH]; [done|].
  rewrite nonnull_meshes_cons, Hi. simpl. by rewrite IH.
Qed.

Lemma nonnull_meshes_length_le sc refs :
  (length (nonnull_meshes sc refs) <= length refs)%nat.
Proof.
  induction refs as [|i refs IH]; [done|].
  rewrite nonnull_meshes_cons.
  destruct (default None (mMeshes sc !! i)); simpl; lia.
Qed.

(** ** [loadModel] *)

Lemma loadModel_rejected pFile sp error w m :
  ReadFile pFile importer_flags = inr error ->
  loadModel pFile sp (mkState w m)
  = Some (tt, mkState (emits [ EvReadFile pFile importer_flags;
                               EvCerr ("Error loading model: " +:+ error) ] w)
                      (set_scene None (set_shaderprogram sp m))).
Proof.
  intros Hr. unfold loadModel. rewrite Hr.
  unfold bind, on_this, on_world, cerr, on_world. simpl.
  by rewrite !emit_emits, emits_emits.
Qed.

Lemma loadModel_no_meshes pFile sp sc w m :
  ReadFile pFile importer_flags = inl sc ->
  mNumMeshes sc = 0%nat ->
  loadModel pFile sp (mkState w m)
  = Some (tt, mkState (emits [ EvReadFile pFile importer_flags;
                               EvCout ("Model loaded successfully: " +:+ pFile);
                               EvCerr "No meshes found in the model." ] w)
                      (set_scene (Some sc) (set_shaderprogram sp m))).
Proof.
  intros Hr H0. unfold loadModel. rewrite Hr.
  unfold bind, on_this, on_world, cout, cerr, on_world. simpl.
  rewrite decide_True by done. simpl.
  by rewrite !emit_emits, !emits_emits.
Qed.

(** A scene with meshes whose indices are in range is walked to the end. *)
Lemma loadModel_walks pFile sp sc s :
  ReadFile pFile importer_flags = inl sc ->
  mNumMeshes sc <> 0%nat ->
  scene_ok sc ->
  loadModel pFile sp s = Some (tt, loaded_state pFile sp sc s).
Proof.
  intros Hr Hn Hok. unfold loadModel. rewrite Hr.
  unfold bind at 1. unfold on_this at 1. simpl.
  unfold bind at 1. unfold on_world at 1. simpl.
  unfold bind at 1. unfold on_this at 1. simpl.
  unfold bind at 1. unfold cout at 1, on_world at 1. simpl.
  rewrite decide_False by done.
  unfold bind at 1. rewrite processNode_script.
  rewrite (run_script_ok sp); [|done|by apply scene_ok_steps].
  unfold loaded_state, bind, get_this, cout, on_world. simpl.
  rewrite !emit_emits, !emits_emits. reflexivity.
Qed.

Lemma count_NoDup (path : string) (l : list string) :
  NoDup l ->
  length (filter (fun f => f = path) l) = if decide (path ∈ l) then 1%nat else 0%nat.
Proof.
  induction 1 as [|x l Hx _ IH]; [done|].
  rewrite filter_cons. destruct (decide (x = path)) as [->|Hne].
  - simpl. rewrite IH. rewrite decide_False by done.
    rewrite decide_True; [done|]. apply elem_of_cons. by left.
  - rewrite IH. destruct (decide (path ∈ l)) as [Hin|Hin].
    + rewrite decide_True; [done|]. apply elem_of_cons. by right.
    + rewrite decide_False; [done|]. rewrite elem_of_cons. intros [?|?]; congruence.
Qed.

Lemma cerr_lines_elem line tr1 tr2 :
  line ∈ cerr_lines (tr1 ++ EvCerr line :: tr2).
Proof.
  rewrite cerr_lines_app. apply elem_of_app. right.
  simpl. apply elem_of_cons. by left.
Qed.

(** What a load that walks the scene leaves behind. *)
Lemma loaded_state_facts pFile sp sc s :
  let s' := loaded_state pFile sp sc s in
  exists new added,
    meshes (this s') = meshes (this s) ++ added
    /\ Forall2 (stored_for sp sc (loadedTextures (this s'))) added
               (nonnull_meshes sc (visited_refs (mRootNode sc)))
    /\ loadedTextures (this s) ⊆ loadedTextures (this s')
    /\ (forall path,
          is_Some (loadedTextures (this s') !! path)
          <-> is_Some (loadedTextures (this s) !! path)
              \/ path ∈ referenced_paths sc (visited_refs (mRootNode sc)))
    /\ trace (world s') = trace (world s) ++ new
    /\ walk new = preorder_walk sc (mRootNode sc) []
    /\ draw_calls new = []
    /\ attrib_lookups new
       = flat_map (fun pm => map texCoord_name (seq 0 (GetNumUVChannels pm)))
                  (nonnull_meshes sc (visited_refs (mRootNode sc)))
    /\ NoDup (readTexture_calls new)
    /\ (forall path,
          path ∈ readTexture_calls new
          <-> loadedTextures (this s) !! path = None
              /\ path ∈ referenced_paths sc (visited_refs (mRootNode sc)))
    /\ (forall path,
          path ∈ referenced_paths sc (visited_refs (mRootNode sc)) ->
          loadedTextures (this s) !! path = None ->
          (lodepng_decode path).1 <> 0 ->
          loadedTextures (this s') !! path = Some 0
          /\ texture_error_line path ∈ cerr_lines new).
Proof.
  intros s'. unfold s', loaded_state. cbv zeta. cbn [this world].
  set (s0 := mkState _ (set_scene (Some sc) (set_shaderprogram sp (this s)))).
  set (steps := script (mRootNode sc) []).
  assert (Hrefs : step_refs steps = visited_refs (mRootNode sc))
    by apply script_refs.
  destruct (steps_state_meshes sp sc steps s0) as (added & Hm & Hst).
  destruct (steps_state_trace sp sc steps s0)
    as (new & Ht & Hw & Hd & Ha & Hnd & Hin).
  rewrite Hrefs in Hst, Ha, Hin.
  exists ([ EvReadFile pFile importer_flags;
            EvCout ("Model loaded successfully: " +:+ pFile) ] ++ new
          ++ [ EvCout ("Number of meshes processed: "
                 +:+ to_string (length (meshes (this (steps_state sp sc steps s0))))) ]),
         added.
  split; [exact Hm|]. split; [exact Hst|].
  split; [apply (steps_state_cache_mono sp sc steps s0)|].
  split; [intros path; rewrite <- Hrefs; apply (steps_state_cached sp sc steps s0)|].
  split; [rewrite trace_emits, Ht; unfold s0; simpl; by rewrite <- !app_assoc|].
  rewrite !walk_app, !draw_calls_app, !attrib_lookups_app, !readTexture_calls_app.
  rewrite Hw, Hd, Ha. unfold steps. rewrite script_walk.
  split; [by rewrite app_nil_r|]. split; [done|].
  split; [by rewrite app_nil_r|].
  change (readTexture_calls [_; _]) with (@nil string).
  change (readTexture_calls [_]) with (@nil string).
  rewrite app_nil_l, app_nil_r.
  split; [done|]. split; [exact Hin|].
  intros path Hp Hc Herr. rewrite <- Hrefs in Hp.
  destruct (steps_state_decode_error sp sc steps s0 path Hp Hc Herr)
    as (H0 & tr1 & tr2 & Ht').
  split; [exact H0|].
  rewrite Ht in Ht'. apply app_inv_head in Ht'. rewrite Ht'.
  rewrite (cerr_lines_app [_; _]). apply elem_of_app. right.
  rewrite (cerr_lines_app (tr1 ++ _)). apply elem_of_app. left.
  apply cerr_lines_elem.
Qed.

(** ** From the stored meshes to the claims *)

Lemma stored_for_meshes sp sc cache added pms :
  Forall2 (stored_for sp sc cache) added pms -> map mesh added = pms.
Proof.
  induction 1 as [|x pm added pms (Hm & _) _ IH]; [done|].
  simpl. by rewrite Hm, IH.
Qed.

Lemma stored_for_texture sp sc cache added pms x path tex :
  Forall2 (stored_for sp sc cache) added pms ->
  x ∈ added ->
  texture_path sc (mesh x) = Some path ->
  cache !! path = Some tex ->
  meshTextures x = [tex].
Proof.
  intros Hst Hx Hp Hc.
  induction Hst as [|y pm added pms (Hm & _ & _ & Htex) _ IH].
  - by apply elem_of_nil in Hx.
  - apply elem_of_cons in Hx as [->|Hx]; [|by apply IH].
    rewrite Htex, <- Hm, Hp, Hc. reflexivity.
Qed.

Lemma times_read_NoDup path tr :
  NoDup (readTexture_calls tr) ->
  times_read path tr = if decide (path ∈ readTexture_calls tr) then 1%nat else 0%nat.
Proof. apply count_NoDup. Qed.

(** The loads of a call keep the account of the cache. *)
Lemma loaded_state_accounts pFile sp sc s :
  cache_accounts_for_loads s ->
  cache_accounts_for_loads (loaded_state pFile sp sc s).
Proof.
  intros Hinv path.
  destruct (loaded_state_facts pFile sp sc s)
    as (new & added & _ & _ & _ & Hdom & Ht & _ & _ & _ & Hnd & Hin & _).
  rewrite Ht, times_read_app, Hinv, (times_read_NoDup _ _ Hnd).
  specialize (Hdom path). specialize (Hin path).
  destruct (loadedTextures (this s) !! path) as [tex|] eqn:Hc.
  - rewrite decide_True by done.
    rewrite (decide_True (P := is_Some _)) by (apply Hdom; eauto).
    rewrite decide_False; [done|]. rewrite Hin. by intros [? _].
  - rewrite (decide_False (P := is_Some None)) by (by intros [? ?]).
    destruct (decide (path ∈ readTexture_calls new)) as [Hr|Hr].
    + rewrite decide_True; [done|]. apply Hdom. right. by apply Hin.
    + rewrite decide_False; [done|]. rewrite Hdom. intros [[? ?]|Hp]; [done|].
      apply Hr, Hin. done.
Qed.

(** ** The order of the walk *)

Lemma flat_imap_lookup {A B} (f : nat -> A -> list B) l :
  forall k i c,
    l !! i = Some c ->
    exists l1 l2, flat_imap f k l = l1 ++ f (k + i)%nat c ++ l2.
Proof.
  induction l as [|x l IH]; intros k i c Hi; [done|].
  destruct i as [|i]; simpl in Hi.
  - simplify_eq. exists [], (flat_imap f (S k) l). simpl. by rewrite Nat.add_0_r.
  - destruct (IH (S k) i c Hi) as (l1 & l2 & Hl).
    exists (f k x ++ l1), l2. cbn [flat_imap]. rewrite Hl, <- app_assoc.
    by rewrite Nat.add_succ_r.
Qed.

Lemma flat_imap_lookup2 {A B} (f : nat -> A -> list B) l :
  forall k i j c d,
    (i < j)%nat ->
    l !! i = Some c ->
    l !! j = Some d ->
    exists l1 l2 l3,
      flat_imap f k l = l1 ++ f (k + i)%nat c ++ l2 ++ f (k + j)%nat d ++ l3.
Proof.
  induction l as [|x l IH]; intros k i j c d Hij Hi Hj; [done|].
  destruct j as [|j]; [lia|]. simpl in Hj.
  destruct i as [|i]; simpl in Hi.
  - simplify_eq. destruct (flat_imap_lookup f l (S k) j d Hj) as (l2 & l3 & Hl).
    exists [], l2, l3. cbn [flat_imap]. rewrite Hl. simpl.
    by rewrite Nat.add_0_r, Nat.add_succ_r.
  - destruct (IH (S k) i j c d ltac:(lia) Hi Hj) as (l1 & l2 & l3 & Hl).
    exists (f k x ++ l1), l2, l3. cbn [flat_imap]. rewrite Hl, <- app_assoc.
    by rewrite !Nat.add_succ_r.
Qed.

Lemma flat_imap_elem {A B} (f : nat -> A -> list B) l x :
  forall k,
    x ∈ flat_imap f k l <-> exists i c, l !! i = Some c /\ x ∈ f (k + i)%nat c.
Proof.
  induction l as [|y l IH]; intros k.
  - simpl. split; [by intros ?%elem_of_nil|by intros (i & c & ? & _)].
  - cbn [flat_imap]. rewrite elem_of_app, IH. split.
    + intros [Hx|(i & c & Hi & Hx)].
      * exists 0%nat, y. by rewrite Nat.add_0_r.
      * exists (S i), c. by rewrite Nat.add_succ_r.
    + intros ([|i] & c & Hi & Hx); simpl in Hi.
      * simplify_eq. left. by rewrite Nat.add_0_r in Hx.
      * right. exists i, c. by rewrite Nat.add_succ_r in Hx.
Qed.

Lemma NoDup_flat_imap {A B} (f : nat -> A -> list B) l :
  forall k,
    (forall i c, l !! i = Some c -> NoDup (f (k + i)%nat c)) ->
    (forall i j c d x,
       l !! i = Some c -> l !! j = Some d ->
       x ∈ f (k + i)%nat c -> x ∈ f (k + j)%nat d -> i = j) ->
    NoDup (flat_imap f k l).
Proof.
  induction l as [|y l IH]; intros k Hnd Hdisj; [constructor|].
  cbn [flat_imap]. apply NoDup_app. split; [|split].
  - specialize (Hnd 0%nat y eq_refl). by rewrite Nat.add_0_r in Hnd.
  - intros x Hx Hx'. apply flat_imap_elem in Hx' as (i & c & Hi & Hxc).
    assert (0%nat = S i); [|done].
    apply (Hdisj 0%nat (S i) y c x); try done.
    + by rewrite Nat.add_0_r.
    + by rewrite Nat.add_succ_r.
  - apply IH.
    + intros i c Hi. specialize (Hnd (S i) c Hi). by rewrite Nat.add_succ_r in Hnd.
    + intros i j c d x Hi Hj Hx Hx'.
      assert (S i = S j); [|lia].
      apply (Hdisj (S i) (S j) c d x); try done; by rewrite Nat.add_succ_r.
Qed.

Lemma node_visits_walk tr : node_visits (walk tr) = node_visits tr.
Proof.
  induction tr as [|e tr IH]; [done|].
  destruct e; simpl; try done. by f_equal.
Qed.

Lemma node_visits_meshes (pms : list (option aiMesh)) :
  node_visits (map EvProcessMesh pms) = [].
Proof. induction pms as [|x pms IH]; [done|]. exact IH. Qed.

(** The addresses of the nodes that the walk enters. *)
Lemma node_visits_preorder sc node :
  forall addr,
    node_visits (preorder_walk sc node addr) = (tree_nodes node addr).*1.
Proof.
  induction node as [name ms cs IH] using aiNode_ind_Forall.
  intros addr. cbn [preorder_walk tree_nodes mChildren node_mMeshes fmap list_fmap].
  change (EvProcessNode addr :: ?l) with ([EvProcessNode addr] ++ l).
  rewrite !node_visits_app, <- map_map, node_visits_meshes. simpl. f_equal.
  generalize 0%nat. induction IH as [|c cs Hc _ IHcs]; intros k; [done|].
  cbn [flat_imap]. by rewrite node_visits_app, fmap_app, Hc, IHcs.
Qed.

Lemma tree_nodes_addrs node addr :
  (tree_nodes node addr).*1
  = addr :: flat_imap (fun i child => (tree_nodes child (addr ++ [i])).*1)
                      0%nat (mChildren node).
Proof.
  destruct node as [name ms cs]. cbn [tree_nodes mChildren fmap list_fmap fst].
  f_equal. generalize 0%nat. induction cs as [|c cs IH]; intros k; [done|].
  cbn [flat_imap]. by rewrite fmap_app, IH.
Qed.

(** The addresses entered are those at which the tree has a node. *)
Lemma tree_nodes_elem node :
  forall addr p,
    p ∈ (tree_nodes node addr).*1
    <-> exists q, p = addr ++ q /\ is_Some (subnode node q).
Proof.
  induction node as [name ms cs IH] using aiNode_ind_Forall.
  intros addr p. rewrite tree_nodes_addrs, elem_of_cons, flat_imap_elem.
  cbn [mChildren]. split.
  - intros [->|(i & c & Hi & Hp)].
    + exists []. by rewrite app_nil_r.
    + apply (Forall_lookup_1 _ _ _ _ IH Hi) in Hp as (q & -> & Hq).
      exists (i :: q). rewrite <- app_assoc. split; [done|].
      simpl. by rewrite Hi.
  - intros ([|i q] & -> & Hq).
    + left. by rewrite app_nil_r.
    + right. simpl in Hq.
      destruct (cs !! i) as [c|] eqn:Hi; [|by destruct Hq].
      exists i, c. split; [done|].
      apply (Forall_lookup_1 _ _ _ _ IH Hi). exists q.
      by rewrite <- app_assoc.
Qed.

(** No address is entered twice. *)
Lemma tree_nodes_NoDup node :
  forall addr, NoDup (tree_nodes node addr).*1.
Proof.
  induction node as [name ms cs IH] using aiNode_ind_Forall.
  intros addr. rewrite tree_nodes_addrs. cbn [mChildren]. constructor.
  - rewrite flat_imap_elem. intros (i & c & Hi & Hp).
    apply tree_nodes_elem in Hp as (q & Hq & _).
    apply (f_equal length) in Hq. rewrite !length_app in Hq. simpl in Hq. lia.
  - apply NoDup_flat_imap.
    + intros i c Hi. apply (Forall_lookup_1 _ _ _ _ IH Hi).
    + intros i j c d x Hi Hj Hx Hx'.
      apply tree_nodes_elem in Hx as (q & -> & _).
      apply tree_nodes_elem in Hx' as (q' & Hq & _).
      rewrite <- !app_assoc in Hq. apply app_inv_head in Hq.
      simpl in Hq. by simplify_eq.
Qed.

(** The walk of a subtree is one piece of the walk of the tree. *)
Lemma preorder_walk_subtree sc q :
  forall node addr n,
    subnode node q = Some n ->
    exists tr1 tr2,
      preorder_walk sc node addr = tr1 ++ preorder_walk sc n (addr ++ q) ++ tr2.
Proof.
  induction q as [|i q IH]; intros node addr n Hn.
  - simpl in Hn. simplify_eq. exists [], []. by rewrite !app_nil_r.
  - simpl in Hn. destruct (mChildren node !! i) as [c|] eqn:Hi; [|done].
    destruct (IH c (addr ++ [i]) n Hn) as (tr1 & tr2 & Hc).
    destruct (flat_imap_lookup
                (fun i child => preorder_walk sc child (addr ++ [i]))
                (mChildren node) 0%nat i c Hi) as (l1 & l2 & Hl).
    destruct node as [name ms cs]. cbn [preorder_walk mChildren node_mMeshes] in *.
    rewrite Hl. cbn [Nat.add]. rewrite Hc.
    exists (EvProcessNode addr
            :: map (fun i => EvProcessMesh (default None (mMeshes sc !! i))) ms
            ++ l1 ++ tr1), (tr2 ++ l2).
    rewrite <- !app_assoc. cbn [app]. by rewrite <- !app_assoc.
Qed.

(** * The claims *)

(** C5: for every mesh that [processMesh] processes, the stored index
    sequence is the concatenation of the index lists of the faces, in the
    order of the faces and with each face's indices in their own order; its
    length is the sum of the faces' index counts. *)
Theorem C5_indices_flattened sp sc pm material w m :
  shaderprogram m = Some sp ->
  mMaterials sc !! mMaterialIndex pm = Some material ->
  exists w' m' x,
    processMesh (Some pm) sc (mkState w m) = Some (tt, mkState w' m')
    /\ meshes m' = meshes m ++ [x]
    /\ mesh x = pm
    /\ indices x = concat (map mIndices (mFaces pm))
    /\ length (indices x) = sum_list (map mNumIndices (mFaces pm)).
Proof.
  intros Hsp Hmat.
  rewrite (processMesh_Some sp sc pm material w m Hsp Hmat).
  assert (Hlen : length (flattened pm) = sum_list (map mNumIndices (mFaces pm))).
  { unfold flattened, mNumIndices.
    induction (mFaces pm) as [|f fs IH]; [done|].
    simpl. by rewrite length_app, IH. }
  destruct (GetTexture_DIFFUSE material 0) as [path|];
    [destruct (loadedTextures m !! path) as [tex|]|];
    cbv zeta; eexists _, _, _; (split; [reflexivity|]); by repeat split.
Qed.

(** C7: for every processed mesh with N UV channels, exactly N attribute
    locations are looked up in the shader program, under the names
    texCoord0 to texCoord(N-1) in this order, and stored in the same
    order. *)
Theorem C7_texcoord_locations sp sc pm material w m :
  shaderprogram m = Some sp ->
  mMaterials sc !! mMaterialIndex pm = Some material ->
  exists w' m' x new,
    processMesh (Some pm) sc (mkState w m) = Some (tt, mkState w' m')
    /\ meshes m' = meshes m ++ [x]
    /\ trace w' = trace w ++ new
    /\ attrib_lookups new
       = map (fun i => "texCoord" +:+ to_string i) (seq 0 (GetNumUVChannels pm))
    /\ texCoordsAttributes x
       = map (fun i => a sp ("texCoord" +:+ to_string i))
             (seq 0 (GetNumUVChannels pm))
    /\ length (attrib_lookups new) = GetNumUVChannels pm
    /\ length (texCoordsAttributes x) = GetNumUVChannels pm.
Proof.
  intros Hsp Hmat.
  rewrite (processMesh_Some sp sc pm material w m Hsp Hmat).
  destruct (mesh_state_trace sp sc pm (mkState w m))
    as (rest & Ht & _ & Ha & _).
  destruct (mesh_state_meshes sp sc pm (mkState w m))
    as (x & Hx & _ & _ & Hloc & _).
  unfold mesh_state, texture_path in Ht, Hx. rewrite Hmat in Ht, Hx.
  cbn [world this] in Ht, Hx.
  match goal with
  | |- exists w' m' x new, Some (tt, ?s) = _ /\ _ =>
      exists (world s), (this s), x, (EvProcessMesh (Some pm) :: rest)
  end.
  split; [by destruct (GetTexture_DIFFUSE material 0) as [path|];
             [destruct (loadedTextures m !! path)|]|].
  split; [by destruct (GetTexture_DIFFUSE material 0) as [path|];
             [destruct (loadedTextures m !! path)|]|].
  split; [by destruct (GetTexture_DIFFUSE material 0) as [path|];
             [destruct (loadedTextures m !! path)|]|].
  change (attrib_lookups (EvProcessMesh (Some pm) :: rest))
    with (attrib_lookups rest).
  rewrite Ha, Hloc. unfold texcoord_locations, texCoord_name.
  by rewrite !length_map, length_seq.
Qed.

(** C2 (amended): [drawMesh] on a mesh enables each location of the mesh's
    texture-coordinate list, binds it to the coordinates of UV channel 0 and
    disables it at once, all before the draw call. When the draw call is
    issued, a location of the list is enabled exactly when it is also the
    location that the current shader program gives for the normal
    attribute, which is enabled after the loop, and the context accepts
    that location; so when the location of the normal attribute is none of
    the list, or is one the context refuses, no location of the list is
    enabled at the draw call. *)
Theorem C2_texcoords_at_draw_call sp pm Mx w m :
  shaderprogram m = Some sp ->
  exists w' new,
    drawMesh (Some pm) Mx (mkState w m) = Some (tt, mkState w' m)
    /\ trace w' = trace w ++ new
    /\ gl_calls new
       = calls_before_draw sp pm Mx
         ++ glDrawElements (to_GLsizei (length (indices pm))) (indices pm)
         :: calls_after_draw sp
    /\ calls_before_draw sp pm Mx
       = [ glTexParameteri GL_TEXTURE_WRAP_S GL_CLAMP_TO_EDGE;
           glTexParameteri GL_TEXTURE_WRAP_T GL_CLAMP_TO_EDGE;
           glTexParameteri GL_TEXTURE_WRAP_S GL_REPEAT;
           glTexParameteri GL_TEXTURE_WRAP_T GL_REPEAT;
           glUniformMatrix4fv (u sp "M") Mx;
           glEnableVertexAttribArray (a sp "vertex");
           glVertexAttribPointer (a sp "vertex") 3 (mVertices (mesh pm)) ]
         ++ flat_map (fun attr =>
              [ glEnableVertexAttribArray attr;
                glVertexAttribPointer attr 2
                  (default None (mTextureCoords (mesh pm) !! 0%nat));
                glDisableVertexAttribArray attr ])
              (texCoordsAttributes pm)
         ++ texture_calls sp 0%nat (meshTextures pm)
         ++ [ glEnableVertexAttribArray (a sp "normal");
              glVertexAttribPointer (a sp "normal") 3 (mNormals (mesh pm)) ]
    /\ filter (fun c => is_draw_call c = true) (calls_before_draw sp pm Mx) = []
    /\ (forall attr,
          attr ∈ texCoordsAttributes pm ->
          to_GLuint attr ∈ enabled (gl_replay (calls_before_draw sp pm Mx) w)
          <-> to_GLuint attr = to_GLuint (a sp "normal")
              /\ to_GLuint (a sp "normal") < GL_MAX_VERTEX_ATTRIBS)
    /\ (to_GLuint (a sp "normal") ∉ to_GLuint <$> texCoordsAttributes pm
        \/ GL_MAX_VERTEX_ATTRIBS <= to_GLuint (a sp "normal") ->
        forall attr,
          attr ∈ texCoordsAttributes pm ->
          to_GLuint attr ∉ enabled (gl_replay (calls_before_draw sp pm Mx) w)).
Proof.
  intros Hsp.
  exists (performs (drawMesh_events sp pm Mx) w), (drawMesh_events sp pm Mx).
  split; [by apply drawMesh_Some|].
  split; [apply trace_performs|].
  split; [apply gl_calls_drawMesh|].
  split; [reflexivity|].
  split; [apply no_draw_before|].
  split; [intros attr Hin; by apply texcoord_enabled_at_draw|].
  intros Hnormal attr Hin Hen.
  apply (texcoord_enabled_at_draw sp pm Mx w attr Hin) in Hen as [Heq Hlt].
  destruct Hnormal as [Hnot|Hge]; [|lia].
  apply Hnot. rewrite <- Heq. by apply list_elem_of_fmap_2.
Qed.

(** C9: [drawMesh] on a null pointer sets the wrap mode of S and of T to
    clamp-to-edge, writes its message and returns: the texture bound to the
    selected unit is left with clamp-to-edge on both axes, and no call sets
    a wrap mode to repeat. *)
Theorem C9_null_mesh_leaves_clamp_to_edge Mx w m :
  exists w',
    drawMesh None Mx (mkState w m) = Some (tt, mkState w' m)
    /\ trace w'
       = trace w
         ++ [ EvGL (glTexParameteri GL_TEXTURE_WRAP_S GL_CLAMP_TO_EDGE);
              EvGL (glTexParameteri GL_TEXTURE_WRAP_T GL_CLAMP_TO_EDGE);
              EvCerr "Null mesh encountered during draw." ]
    /\ active_unit w' = active_unit w
    /\ binding w' = binding w
    /\ tex_param w' (binding w (active_unit w)) GL_TEXTURE_WRAP_S = GL_CLAMP_TO_EDGE
    /\ tex_param w' (binding w (active_unit w)) GL_TEXTURE_WRAP_T = GL_CLAMP_TO_EDGE
    /\ forall p, glTexParameteri p GL_REPEAT ∉ gl_calls (drop (length (trace w)) (trace w')).
Proof.
  exists (performs drawMesh_null_events w).
  split; [apply drawMesh_null|].
  split; [apply trace_performs|].
  split; [done|]. split; [done|].
  split; [simpl; by repeat (case_decide; try (forget_environment; naive_solver))|].
  split; [simpl; by repeat (case_decide; try (forget_environment; naive_solver))|].
  intros p. rewrite trace_performs, drop_app_length. simpl.
  rewrite !elem_of_cons, elem_of_nil. (forget_environment; naive_solver).
Qed.

(** C1 (amended): after a load that walks a scene with at least one mesh,
    the number of stored meshes is the number stored before the call plus
    the number of mesh pointers met by the walk that are not null; when
    none of them is null this is the number stored before plus the sum of
    mNumMeshes over the nodes visited, and on a Model that held no mesh it
    is that sum. *)
Theorem C1_mesh_count pFile sp sc s :
  ReadFile pFile importer_flags = inl sc ->
  mNumMeshes sc <> 0%nat ->
  scene_ok sc ->
  exists s',
    loadModel pFile sp s = Some (tt, s')
    /\ length (meshes (this s'))
       = (length (meshes (this s))
          + length (nonnull_meshes sc (visited_refs (mRootNode sc))))%nat
    /\ (Forall (fun i => exists pm, mMeshes sc !! i = Some (Some pm))
               (visited_refs (mRootNode sc)) ->
        length (meshes (this s'))
        = (length (meshes (this s)) + sum_mNumMeshes (mRootNode sc))%nat
        /\ (meshes (this s) = [] ->
            length (meshes (this s')) = sum_mNumMeshes (mRootNode sc))).
Proof.
  intros Hr Hn Hok. exists (loaded_state pFile sp sc s).
  split; [by apply loadModel_walks|].
  destruct (loaded_state_facts pFile sp sc s) as (new & added & Hm & Hst & _).
  assert (Hlen : length (meshes (this (loaded_state pFile sp sc s)))
                 = (length (meshes (this s))
                    + length (nonnull_meshes sc (visited_refs (mRootNode sc))))%nat).
  { rewrite Hm, length_app. f_equal. by apply Forall2_length in Hst. }
  split; [exact Hlen|].
  intros Hnn. rewrite Hlen, (nonnull_meshes_length _ _ Hnn), sum_mNumMeshes_refs.
  split; [done|]. by intros ->.
Qed.

(** C3 (amended): a load stores one mesh for each mesh pointer of the walk
    that is not null, and any two of them that refer to the same diffuse
    texture path are stored with the same handle, the one the cache holds
    for the path after the load. During the call the loader is called for
    that path exactly once when the path was not cached when the call
    began, and not at all when it was. *)
Theorem C3_shared_path_shared_handle pFile sp sc s :
  ReadFile pFile importer_flags = inl sc ->
  mNumMeshes sc <> 0%nat ->
  scene_ok sc ->
  exists s' added new,
    loadModel pFile sp s = Some (tt, s')
    /\ meshes (this s') = meshes (this s) ++ added
    /\ map mesh added = nonnull_meshes sc (visited_refs (mRootNode sc))
    /\ trace (world s') = trace (world s) ++ new
    /\ forall i j x y path,
         (i < j)%nat ->
         added !! i = Some x ->
         added !! j = Some y ->
         texture_path sc (mesh x) = Some path ->
         texture_path sc (mesh y) = Some path ->
         (exists tex,
            meshTextures x = [tex]
            /\ meshTextures y = [tex]
            /\ loadedTextures (this s') !! path = Some tex)
         /\ times_read path new
            = match loadedTextures (this s) !! path with
              | None => 1%nat
              | Some _ => 0%nat
              end.
Proof.
  intros Hr Hn Hok.
  destruct (loaded_state_facts pFile sp sc s)
    as (new & added & Hm & Hst & _ & Hdom & Ht & _ & _ & _ & Hnd & Hin & _).
  exists (loaded_state pFile sp sc s), added, new.
  split; [by apply loadModel_walks|]. split; [done|].
  split; [exact (stored_for_meshes _ _ _ _ _ Hst)|]. split; [done|].
  intros i j x y path _ Hx Hy Hpx Hpy.
  assert (Href : path ∈ referenced_paths sc (visited_refs (mRootNode sc))).
  { unfold referenced_paths. rewrite <- (stored_for_meshes _ _ _ _ _ Hst).
    apply list_elem_of_omap. exists (mesh x). split; [|done].
    apply (list_elem_of_fmap_2 mesh).
    by apply list_elem_of_lookup_2 in Hx. }
  assert (Hsome : is_Some (loadedTextures (this (loaded_state pFile sp sc s)) !! path))
    by (apply Hdom; by right).
  destruct Hsome as [tex Hc].
  split.
  - exists tex. split; [|split; [|exact Hc]].
    + eapply stored_for_texture; [exact Hst| |done|done].
      by apply list_elem_of_lookup_2 in Hx.
    + eapply stored_for_texture; [exact Hst| |done|done].
      by apply list_elem_of_lookup_2 in Hy.
  - rewrite (times_read_NoDup _ _ Hnd).
    destruct (loadedTextures (this s) !! path) as [old|] eqn:Hold.
    + rewrite decide_False; [done|].
      intros Hcall. apply Hin in Hcall as [Hnone _]. congruence.
    + rewrite decide_True; [done|]. by apply Hin.
Qed.

(** C4 (amended): when the importer gives no scene, or a scene without
    meshes, [loadModel] writes the failure and returns with the stored
    meshes and the texture cache as they were before the call; on a Model
    that held no mesh, the Model still holds none and a draw that follows
    does nothing at all. *)
Theorem C4_failed_load pFile sp s :
  match ReadFile pFile importer_flags with
  | inl sc => mNumMeshes sc = 0%nat
  | inr _ => True
  end ->
  exists s' new,
    loadModel pFile sp s = Some (tt, s')
    /\ meshes (this s') = meshes (this s)
    /\ loadedTextures (this s') = loadedTextures (this s)
    /\ trace (world s') = trace (world s) ++ new
    /\ cerr_lines new = [load_failure_line (ReadFile pFile importer_flags)]
    /\ draw_calls new = []
    /\ (meshes (this s) = [] ->
        meshes (this s') = [] /\ forall Mx, draw Mx s' = Some (tt, s')).
Proof.
  intros Hfail. destruct s as [w m].
  destruct (ReadFile pFile importer_flags) as [sc|error] eqn:Hr.
  - rewrite (loadModel_no_meshes pFile sp sc w m Hr Hfail).
    eexists _, _. split; [reflexivity|]. repeat split; try done.
    intros Mx. by apply draw_empty.
  - rewrite (loadModel_rejected pFile sp error w m Hr).
    eexists _, _. split; [reflexivity|]. repeat split; try done.
    intros Mx. by apply draw_empty.
Qed.

(** C6: when the file of a texture path does not decode, [readTexture]
    writes the error and returns 0; in a load that meets the path for the
    first time, the path is cached with 0, every mesh that refers to it is
    stored with handle 0, and the load goes on: every mesh pointer of the
    walk that is not null gets its stored mesh. *)
Theorem C6_decode_failure path :
  (lodepng_decode path).1 <> 0 ->
  (forall w,
     (readTexture path w).1 = 0
     /\ trace (readTexture path w).2
        = trace w
          ++ [ EvReadTexture path; EvGL (glActiveTexture 0); EvDecode path;
               EvCerr ("Error loading texture: "
                       +:+ lodepng_error_text (lodepng_decode path).1) ])
  /\ forall pFile sp sc s,
       ReadFile pFile importer_flags = inl sc ->
       mNumMeshes sc <> 0%nat ->
       scene_ok sc ->
       loadedTextures (this s) !! path = None ->
       path ∈ referenced_paths sc (visited_refs (mRootNode sc)) ->
       exists s' added new,
         loadModel pFile sp s = Some (tt, s')
         /\ meshes (this s') = meshes (this s) ++ added
         /\ map mesh added = nonnull_meshes sc (visited_refs (mRootNode sc))
         /\ trace (world s') = trace (world s) ++ new
         /\ ("Error loading texture: "
             +:+ lodepng_error_text (lodepng_decode path).1) ∈ cerr_lines new
         /\ times_read path new = 1%nat
         /\ loadedTextures (this s') !! path = Some 0
         /\ forall x,
              x ∈ added ->
              texture_path sc (mesh x) = Some path ->
              meshTextures x = [0].
Proof.
  intros Herr. split.
  - intros w. rewrite (readTexture_error path w Herr). split; [done|].
    cbn [snd]. rewrite !trace_emits, trace_gl, trace_emits, <- !app_assoc.
    reflexivity.
  - intros pFile sp sc s Hr Hn Hok Hc Href.
    destruct (loaded_state_facts pFile sp sc s)
      as (new & added & Hm & Hst & _ & _ & Ht & _ & _ & _ & Hnd & Hin & Hdec).
    destruct (Hdec path Href Hc Herr) as [H0 Hline].
    exists (loaded_state pFile sp sc s), added, new.
    split; [by apply loadModel_walks|]. split; [done|].
    split; [by apply (stored_for_meshes sp sc _ _ _ Hst)|].
    split; [done|]. split; [exact Hline|].
    split; [rewrite (times_read_NoDup _ _ Hnd), decide_True; [done|by apply Hin]|].
    split; [done|].
    intros x Hx Hp. by eapply stored_for_texture.
Qed.


(** C8: the walk of [loadModel] is the pre-order walk from the root. It
    enters the root first; for every node of the tree, the entry of the
    node is followed at once by the node's own meshes and then by the walks
    of its children; the walk of an earlier child comes before the walk of
    a later one; every node of the tree is entered, and none twice. *)
Theorem C8_preorder_walk pFile sp sc s :
  ReadFile pFile importer_flags = inl sc ->
  mNumMeshes sc <> 0%nat ->
  scene_ok sc ->
  exists s' new,
    loadModel pFile sp s = Some (tt, s')
    /\ trace (world s') = trace (world s) ++ new
    /\ walk new = preorder_walk sc (mRootNode sc) []
    /\ (exists rest, walk new = EvProcessNode [] :: rest)
    /\ NoDup (node_visits new)
    /\ (forall addr,
          addr ∈ node_visits new <-> is_Some (subnode (mRootNode sc) addr))
    /\ (forall addr node,
          subnode (mRootNode sc) addr = Some node ->
          exists tr1 tr2,
            walk new
            = tr1
              ++ EvProcessNode addr
              :: map (fun i => EvProcessMesh (default None (mMeshes sc !! i)))
                     (node_mMeshes node)
              ++ flat_imap (fun i child => preorder_walk sc child (addr ++ [i]))
                           0%nat (mChildren node)
              ++ tr2)
    /\ (forall addr node i j ci cj,
          subnode (mRootNode sc) addr = Some node ->
          (i < j)%nat ->
          mChildren node !! i = Some ci ->
          mChildren node !! j = Some cj ->
          exists tr1 tr2 tr3,
            walk new
            = tr1 ++ preorder_walk sc ci (addr ++ [i])
              ++ tr2 ++ preorder_walk sc cj (addr ++ [j]) ++ tr3).
Proof.
  intros Hr Hn Hok.
  destruct (loaded_state_facts pFile sp sc s)
    as (new & added & _ & _ & _ & _ & Ht & Hw & _).
  exists (loaded_state pFile sp sc s), new.
  split; [by apply loadModel_walks|]. split; [done|]. split; [done|].
  assert (Hv : node_visits new = (tree_nodes (mRootNode sc) []).*1)
    by (by rewrite <- node_visits_walk, Hw, node_visits_preorder).
  assert (Hsub : forall addr node,
            subnode (mRootNode sc) addr = Some node ->
            exists tr1 tr2, walk new = tr1 ++ preorder_walk sc node addr ++ tr2).
  { intros addr node Hnode. rewrite Hw.
    apply (preorder_walk_subtree sc addr (mRootNode sc) [] node Hnode). }
  split; [|split; [|split; [|split]]].
  - rewrite Hw. destruct (mRootNode sc) as [name ms cs]. by eexists.
  - rewrite Hv. apply tree_nodes_NoDup.
  - intros addr. rewrite Hv, tree_nodes_elem. split.
    + by intros (q & -> & Hq).
    + intros Hq. by exists addr.
  - intros addr node Hnode. destruct (Hsub addr node Hnode) as (tr1 & tr2 & Hs).
    exists tr1, tr2. rewrite Hs. destruct node as [name ms cs].
    cbn [preorder_walk mChildren node_mMeshes]. f_equal.
    rewrite <- app_comm_cons. f_equal. by rewrite <- app_assoc.
  - intros addr node i j ci cj Hnode Hij Hi Hj.
    destruct (Hsub addr node Hnode) as (tr1 & tr2 & Hs).
    destruct (flat_imap_lookup2
                (fun i child => preorder_walk sc child (addr ++ [i]))
                (mChildren node) 0%nat i j ci cj Hij Hi Hj)
      as (l1 & l2 & l3 & Hl).
    cbn [Nat.add] in Hl.
    exists (tr1 ++ EvProcessNode addr
            :: map (fun i => EvProcessMesh (default None (mMeshes sc !! i)))
                   (node_mMeshes node)
            ++ l1), l2, (l3 ++ tr2).
    rewrite Hs. destruct node as [name ms cs].
    cbn [preorder_walk mChildren node_mMeshes] in *. rewrite Hl.
    rewrite <- !app_assoc. cbn [app]. by rewrite <- !app_assoc.
Qed.

(** ** Where the walk is undefined *)

Lemma processMesh_no_material sp sc pm w m :
  shaderprogram m = Some sp ->
  mMaterials sc !! mMaterialIndex pm = None ->
  processMesh (Some pm) sc (mkState w m) = None.
Proof.
  intros Hsp Hmat. unfold processMesh.
  unfold bind at 1. unfold on_world at 1. simpl.
  unfold bind at 1. rewrite faces_loop. simpl.
  unfold bind at 1. rewrite (texcoord_loop sp) by done. simpl.
  unfold bind at 1. unfold index. by rewrite Hmat.
Qed.

Lemma run_step_defined sp sc st s s' :
  shaderprogram (this s) = Some sp ->
  run_step sc st s = Some (tt, s') ->
  steps_ok sc [st].
Proof.
  intros Hsp Hrun. destruct s as [w m]. simpl in Hsp.
  destruct st as [addr|i]; [split; constructor|].
  unfold run_step, bind, index in Hrun.
  destruct (mMeshes sc !! i) as [pmesh|] eqn:Hi; [|done].
  unfold ret in Hrun.
  unfold steps_ok, nonnull_meshes, step_refs. simpl. rewrite Hi. simpl.
  split; [constructor; [by eexists|constructor]|].
  destruct pmesh as [pm|]; simpl; [|constructor].
  constructor; [|constructor].
  destruct (mMaterials sc !! mMaterialIndex pm) as [material|] eqn:Hmat;
    [by eexists|].
  by rewrite (processMesh_no_material sp sc pm w m Hsp Hmat) in Hrun.
Qed.

(** If the walk runs to its end, its indices were in range. *)
Lemma run_script_defined sp sc steps :
  forall s s',
    shaderprogram (this s) = Some sp ->
    run_script sc steps s = Some (tt, s') ->
    steps_ok sc steps.
Proof.
  induction steps as [|st steps IH]; intros s s' Hsp Hrun.
  - split; constructor.
  - unfold run_script in Hrun. rewrite for_each_unit_cons in Hrun.
    apply bind_inv in Hrun as ([] & s1 & Hst & Hrest).
    pose proof (run_step_defined sp sc st s s1 Hsp Hst) as Hok.
    apply steps_ok_cons. split; [exact Hok|].
    rewrite (run_step_ok sp sc st s Hsp Hok) in Hst.
    injection Hst as <-.
    rewrite for_each_shift with (j := 0%nat) in Hrest.
    apply (IH (step_state sp sc st s) s'); [|exact Hrest].
    by rewrite shaderprogram_step_state.
Qed.

(** A load that walks a scene and returns has walked a scene whose
    indices are in range. *)
Lemma loadModel_defined pFile sp sc s s' :
  ReadFile pFile importer_flags = inl sc ->
  mNumMeshes sc <> 0%nat ->
  loadModel pFile sp s = Some (tt, s') ->
  scene_ok sc.
Proof.
  intros Hr Hn Hrun. unfold loadModel in Hrun. rewrite Hr in Hrun.
  apply bind_inv in Hrun as ([] & s1 & H1 & Hrun).
  apply bind_inv in Hrun as ([] & s2 & H2 & Hrun).
  apply bind_inv in Hrun as ([] & s3 & H3 & Hrun).
  apply bind_inv in Hrun as ([] & s4 & H4 & Hrun).
  rewrite decide_False in Hrun by done.
  apply bind_inv in Hrun as ([] & s5 & H5 & _).
  rewrite processNode_script in H5.
  apply scene_ok_steps. apply (run_script_defined sp sc _ s4 s5); [|exact H5].
  unfold on_this, on_world, cout, on_world in H1, H2, H3, H4.
  simplify_eq. reflexivity.
Qed.

(** ** The context through the calls of [drawMesh] *)

Lemma Forall_flat_imap {A B} (P : B -> Prop) (f : nat -> A -> list B) l :
  (forall i x, Forall P (f i x)) -> forall i, Forall P (flat_imap f i l).
Proof.
  intros Hf. induction l as [|x l IH]; intros i; [constructor|].
  cbn [flat_imap]. apply Forall_app_2; [apply Hf|apply IH].
Qed.

Lemma Forall_flat_map' {A B} (P : B -> Prop) (f : A -> list B) l :
  (forall x, Forall P (f x)) -> Forall P (flat_map f l).
Proof.
  intros Hf. induction l as [|x l IH]; [constructor|].
  cbn [flat_map]. apply Forall_app_2; [apply Hf|apply IH].
Qed.

(** Calls that set no texture parameter, upload no image and hand out no
    name leave the texture objects as they are. *)
Lemma textures_replay_other calls :
  Forall (fun c => is_tex_parameter c = false /\ is_tex_creation c = false) calls ->
  forall w,
    tex_param (gl_replay calls w) = tex_param w
    /\ tex_image (gl_replay calls w) = tex_image w
    /\ next_texture (gl_replay calls w) = next_texture w.
Proof.
  induction 1 as [|c calls [Hp Hc] _ IH]; intros w; [done|].
  simpl. destruct (IH (gl_effect c w)) as (-> & -> & ->).
  destruct c; try done; simpl; by repeat case_decide.
Qed.

Lemma calls_after_wrap_other sp pm Mx :
  Forall (fun c => is_tex_parameter c = false /\ is_tex_creation c = false)
    ([ glUniformMatrix4fv (u sp "M") Mx;
       glEnableVertexAttribArray (a sp "vertex");
       glVertexAttribPointer (a sp "vertex") 3 (mVertices (mesh pm)) ]
     ++ flat_map (texcoord_calls pm) (texCoordsAttributes pm)
     ++ texture_calls sp 0%nat (meshTextures pm)
     ++ [ glEnableVertexAttribArray (a sp "normal");
          glVertexAttribPointer (a sp "normal") 3 (mNormals (mesh pm)) ]
     ++ glDrawElements (to_GLsizei (length (indices pm))) (indices pm)
     :: calls_after_draw sp).
Proof.
  apply Forall_app_2; [by repeat constructor|].
  apply Forall_app_2; [apply Forall_flat_map'; intros x; by repeat constructor|].
  apply Forall_app_2; [apply Forall_flat_imap; intros i x; by repeat constructor|].
  apply Forall_app_2; by repeat constructor.
Qed.

(** The attribute arrays that are enabled when the draw call is issued. *)
Lemma enabled_at_draw sp pm Mx w :
  enabled (gl_replay (calls_before_draw sp pm Mx) w)
  = (if decide (to_GLuint (a sp "normal") < GL_MAX_VERTEX_ATTRIBS)
     then {[ to_GLuint (a sp "normal") ]} else ∅)
    ∪ ((if decide (to_GLuint (a sp "vertex") < GL_MAX_VERTEX_ATTRIBS)
        then {[ to_GLuint (a sp "vertex") ]} else ∅)
       ∪ enabled w)
      ∖ list_to_set (to_GLuint <$> texCoordsAttributes pm).
Proof.
  unfold calls_before_draw. rewrite !gl_replay_app. simpl.
  repeat case_decide; simpl; rewrite ?enabled_textures, ?enabled_texcoords;
    simpl; rewrite ?decide_True, ?decide_False by done; simpl;
    (forget_environment; set_solver).
Qed.

(** The draw calls of [drawMesh]: one. *)
Lemma draw_calls_drawMesh sp pm Mx :
  draw_calls (drawMesh_events sp pm Mx)
  = [ glDrawElements (to_GLsizei (length (indices pm))) (indices pm) ].
Proof.
  unfold draw_calls. rewrite gl_calls_drawMesh, filter_app, no_draw_before.
  reflexivity.
Qed.

(** ** What a load leaves alone *)

Lemma keeps_textures_refl w : keeps_textures w w.
Proof. split; [lia|]. split; [done|]. by intros t _. Qed.

Lemma keeps_textures_trans w1 w2 w3 :
  keeps_textures w1 w2 -> keeps_textures w2 w3 -> keeps_textures w1 w3.
Proof.
  intros (Hn1 & He1 & Ht1) (Hn2 & He2 & Ht2).
  split; [lia|]. split; [congruence|].
  intros t Ht. destruct (Ht1 t Ht) as [Hi1 Hp1].
  destruct (Ht2 t ltac:(lia)) as [Hi2 Hp2].
  split; [congruence|]. intros p. by rewrite Hp2, Hp1.
Qed.

Lemma keeps_textures_emits es w : keeps_textures w (emits es w).
Proof. unfold keeps_textures. simpl. split; [lia|]. split; [done|]. by intros t _. Qed.

(** [readTexture] works on the texture that it creates. *)
Lemma readTexture_keeps filename w :
  keeps_textures w (readTexture filename w).2.
Proof.
  destruct (decide ((lodepng_decode filename).1 = 0)) as [Hok|Herr].
  - unfold readTexture.
    destruct (lodepng_decode filename) as [error img]. simpl in Hok. subst error.
    rewrite decide_False by (intros H; by apply H).
    cbv zeta. cbn [snd]. unfold keeps_textures.
    cbn [gl gl_effect emit trace active_unit binding tex_param tex_image
         next_texture enabled].
    case_decide;
      cbn [trace active_unit binding tex_param tex_image next_texture enabled].
    + split; [lia|]. split; [done|]. intros t Ht.
      rewrite !(decide_True (P := 0 = 0)) by done.
      split; [rewrite decide_False by lia; done|].
      intros p. rewrite !decide_False by (intros [? _]; lia). done.
    + cbn [emit trace active_unit binding tex_param tex_image next_texture enabled].
      split; [lia|]. split; [done|]. intros t Ht.
      rewrite !(decide_True (P := active_unit w = active_unit w)) by done.
      split; [rewrite decide_False by lia; done|].
      intros p. rewrite !decide_False by (intros [? _]; lia). done.
  - rewrite (readTexture_error filename w Herr). cbn [snd].
    unfold keeps_textures. split; [|split].
    + cbn [gl gl_effect emit emits next_texture]. case_decide; simpl; lia.
    + cbn [gl gl_effect emit emits enabled]. by case_decide.
    + intros t _. cbn [gl gl_effect emit emits tex_image tex_param].
      by case_decide.
Qed.

Lemma mesh_state_keeps sp sc pm s :
  keeps_textures (world s) (world (mesh_state sp sc pm s)).
Proof.
  unfold mesh_state.
  destruct (texture_path sc pm) as [path|];
    [destruct (loadedTextures (this s) !! path) as [tex|]|];
    cbv zeta; cbn [world]; try apply keeps_textures_emits.
  eapply keeps_textures_trans; [apply keeps_textures_emits|apply readTexture_keeps].
Qed.

Lemma steps_state_keeps sp sc steps :
  forall s, keeps_textures (world s) (world (steps_state sp sc steps s)).
Proof.
  induction steps as [|st steps IH]; intros s; [apply keeps_textures_refl|].
  rewrite steps_state_cons.
  eapply keeps_textures_trans; [|apply IH].
  destruct st as [addr|i]; [apply keeps_textures_emits|].
  rewrite step_state_mesh.
  destruct (default None (mMeshes sc !! i)) as [pm|];
    [apply mesh_state_keeps|apply keeps_textures_emits].
Qed.

Lemma loaded_state_keeps pFile sp sc s :
  keeps_textures (world s) (world (loaded_state pFile sp sc s)).
Proof.
  unfold loaded_state. cbv zeta. cbn [world].
  eapply keeps_textures_trans; [|apply keeps_textures_emits].
  eapply keeps_textures_trans;
    [|apply (steps_state_keeps sp sc (script (mRootNode sc) []))].
  apply keeps_textures_emits.
Qed.

(** Every outcome of a load that returns. *)
Lemma loadModel_outcome pFile sp s s' :
  loadModel pFile sp s = Some (tt, s') ->
  match ReadFile pFile importer_flags with
  | inr error =>
      s' = mkState (emits [ EvReadFile pFile importer_flags;
                            EvCerr ("Error loading model: " +:+ error) ] (world s))
                   (set_scene None (set_shaderprogram sp (this s)))
  | inl sc =>
      if decide (mNumMeshes sc = 0%nat)
      then s' = mkState (emits [ EvReadFile pFile importer_flags;
                                 EvCout ("Model loaded successfully: " +:+ pFile);
                                 EvCerr "No meshes found in the model." ] (world s))
                        (set_scene (Some sc) (set_shaderprogram sp (this s)))
      else scene_ok sc /\ s' = loaded_state pFile sp sc s
  end.
Proof.
  intros Hrun. destruct (ReadFile pFile importer_flags) as [sc|error] eqn:Hr.
  - case_decide as Hn.
    + destruct s as [w m].
      rewrite (loadModel_no_meshes pFile sp sc w m Hr Hn) in Hrun. by simplify_eq.
    + pose proof (loadModel_defined pFile sp sc s s' Hr Hn Hrun) as Hok.
      split; [exact Hok|].
      rewrite (loadModel_walks pFile sp sc s Hr Hn Hok) in Hrun. by simplify_eq.
  - destruct s as [w m].
    rewrite (loadModel_rejected pFile sp error w m Hr) in Hrun. by simplify_eq.
Qed.

(** A load that returns keeps the account of the cache, the stored meshes
    and the cache entries. *)
Lemma loadModel_keeps_account pFile sp s s' :
  loadModel pFile sp s = Some (tt, s') ->
  cache_accounts_for_loads s ->
  cache_accounts_for_loads s'
  /\ (exists added, meshes (this s') = meshes (this s) ++ added)
  /\ loadedTextures (this s) ⊆ loadedTextures (this s').
Proof.
  intros Hrun Hinv. apply loadModel_outcome in Hrun.
  destruct (ReadFile pFile importer_flags) as [sc|error];
    [case_decide; [|destruct Hrun as [Hok Hrun]]|]; subst s'.
  - split; [|split; [exists []; simpl; by rewrite app_nil_r|done]].
    intros path. cbn [world this trace emits loadedTextures set_scene
                      set_shaderprogram].
    rewrite times_read_app. change (times_read path [_; _; _]) with 0%nat.
    by rewrite Nat.add_0_r.
  - split; [by apply loaded_state_accounts|].
    destruct (loaded_state_facts pFile sp sc s) as (new & added & Hm & _ & Hsub & _).
    split; [by exists added|done].
  - split; [|split; [exists []; simpl; by rewrite app_nil_r|done]].
    intros path. cbn [world this trace emits loadedTextures set_scene
                      set_shaderprogram].
    rewrite times_read_app. change (times_read path [_; _]) with 0%nat.
    by rewrite Nat.add_0_r.
Qed.

Lemma loadModel_returns pFile sp s :
  file_ok pFile -> exists s', loadModel pFile sp s = Some (tt, s').
Proof.
  unfold file_ok. intros Hok.
  destruct (ReadFile pFile importer_flags) as [sc|error] eqn:Hr;
    [destruct (decide (mNumMeshes sc = 0%nat)) as [H0|Hn]|].
  - destruct s as [w m]. rewrite (loadModel_no_meshes pFile sp sc w m Hr H0).
    by eexists.
  - exists (loaded_state pFile sp sc s). apply loadModel_walks; auto.
  - destruct s as [w m]. rewrite (loadModel_rejected pFile sp error w m Hr).
    by eexists.
Qed.


(** ** The texture units through the calls of [drawMesh] *)

Lemma bindings_replay_other calls :
  Forall (fun c => is_binding_call c = false) calls ->
  forall w,
    active_unit (gl_replay calls w) = active_unit w
    /\ binding (gl_replay calls w) = binding w.
Proof.
  induction 1 as [|c calls Hc _ IH]; intros w; [done|].
  simpl. destruct (IH (gl_effect c w)) as (-> & ->).
  destruct c; try done; simpl; by repeat case_decide.
Qed.

(** The loop of lines 168-173 binds texture [j] of the list on unit
    [i + j], and leaves the other units as they are. *)
Lemma bindings_textures sp texs :
  forall i w,
    Z.of_nat i + Z.of_nat (length texs) <= GL_MAX_TEXTURE_UNITS ->
    (forall j tex,
       texs !! j = Some tex ->
       binding (gl_replay (texture_calls sp i texs) w) (Z.of_nat (i + j)) = tex)
    /\ (forall unit,
          ~ (Z.of_nat i <= unit < Z.of_nat i + Z.of_nat (length texs)) ->
          binding (gl_replay (texture_calls sp i texs) w) unit = binding w unit)
    /\ active_unit (gl_replay (texture_calls sp i texs) w)
       = match texs with
         | [] => active_unit w
         | _ => Z.of_nat i + Z.of_nat (length texs) - 1
         end.
Proof.
  induction texs as [|tex texs IH]; intros i w Hmax.
  - split; [by intros j tex ?|]. by split.
  - unfold texture_calls. cbn [flat_imap]. rewrite gl_replay_app.
    fold (texture_calls sp (S i) texs).
    set (w1 := gl_replay _ w).
    assert (Hw1 : active_unit w1 = Z.of_nat i
                  /\ binding w1 (Z.of_nat i) = tex
                  /\ forall unit, unit <> Z.of_nat i -> binding w1 unit = binding w unit).
    { unfold w1. simpl. simpl in Hmax.
      rewrite decide_True by lia. simpl.
      split; [done|]. split; [by rewrite decide_True|].
      intros unit Hu. by rewrite decide_False. }
    destruct Hw1 as (Ha1 & Hb1 & Ho1).
    simpl in Hmax.
    destruct (IH (S i) w1 ltac:(lia)) as (Hj & Hout & Hact).
    split; [|split].
    + intros [|j] tex' Hlk; simpl in Hlk.
      * simplify_eq. rewrite Nat.add_0_r, Hout by lia. done.
      * rewrite <- (Hj j tex' Hlk). f_equal. lia.
    + intros unit Hu. simpl length in Hu. rewrite Hout by lia. apply Ho1. lia.
    + rewrite Hact. destruct texs as [|tex' texs]; simpl length; lia.
Qed.

Lemma calls_before_textures_other sp pm Mx :
  Forall (fun c => is_binding_call c = false) (calls_before_textures sp pm Mx).
Proof.
  apply Forall_app_2; [by repeat constructor|].
  apply Forall_flat_map'. intros x. by repeat constructor.
Qed.

Lemma calls_after_textures_other sp pm :
  Forall (fun c => is_binding_call c = false) (calls_after_textures sp pm).
Proof. by repeat constructor. Qed.

Lemma gl_calls_drawMesh_textures sp pm Mx :
  gl_calls (drawMesh_events sp pm Mx)
  = calls_before_textures sp pm Mx
    ++ texture_calls sp 0%nat (meshTextures pm)
    ++ calls_after_textures sp pm.
Proof.
  rewrite gl_calls_drawMesh. unfold calls_before_draw, calls_before_textures.
  rewrite <- !app_assoc. reflexivity.
Qed.

(** * Further properties of the code *)

(** X1: when the file decodes, [readTexture] returns the name that the
    context hands out, leaves that texture bound on unit 0 with the decoded
    image and linear minification and magnification filters, and touches no
    other texture and no attribute array. *)
Theorem X1_readTexture_success filename img w :
  lodepng_decode filename = (0, img) ->
  0 < GL_MAX_TEXTURE_UNITS ->
  exists tex w' new,
    readTexture filename w = (tex, w')
    /\ tex = next_texture w
    /\ next_texture w' = next_texture w + 1
    /\ trace w' = trace w ++ new
    /\ gl_calls new
       = [ glActiveTexture 0; glGenTextures tex; glBindTexture tex;
           glTexImage2D img;
           glTexParameteri GL_TEXTURE_MIN_FILTER GL_LINEAR;
           glTexParameteri GL_TEXTURE_MAG_FILTER GL_LINEAR ]
    /\ cerr_lines new = []
    /\ active_unit w' = 0
    /\ binding w' 0 = tex
    /\ (forall unit, unit <> 0 -> binding w' unit = binding w unit)
    /\ tex_image w' tex = Some img
    /\ tex_param w' tex GL_TEXTURE_MIN_FILTER = GL_LINEAR
    /\ tex_param w' tex GL_TEXTURE_MAG_FILTER = GL_LINEAR
    /\ tex_param w' tex GL_TEXTURE_WRAP_S = tex_param w tex GL_TEXTURE_WRAP_S
    /\ tex_param w' tex GL_TEXTURE_WRAP_T = tex_param w tex GL_TEXTURE_WRAP_T
    /\ (forall t p, t <> tex -> tex_param w' t p = tex_param w t p)
    /\ (forall t, t <> tex -> tex_image w' t = tex_image w t)
    /\ enabled w' = enabled w.
Proof.
  intros Hdec Hunits. unfold readTexture. rewrite Hdec.
  rewrite decide_False by (intros H; by apply H).
  cbv zeta. eexists _, _, _. split; [reflexivity|].
  cbn [gl gl_effect emit trace active_unit binding tex_param tex_image
       next_texture enabled].
  rewrite !decide_True by lia.
  cbn [trace active_unit binding tex_param tex_image next_texture enabled].
  split; [reflexivity|]. split; [reflexivity|].
  split; [rewrite <- !app_assoc; reflexivity|].
  split; [reflexivity|]. split; [reflexivity|]. split; [reflexivity|].
  split; [by rewrite decide_True|].
  split; [intros unit Hu; by rewrite decide_False|].
  rewrite !(decide_True (P := 0 = 0)) by done.
  split; [by rewrite decide_True|].
  split; [rewrite decide_False by (by intros [_ ?]); by rewrite decide_True|].
  split; [by rewrite decide_True|].
  split; [by rewrite !decide_False by (by intros [_ ?])|].
  split; [by rewrite !decide_False by (by intros [_ ?])|].
  split; [intros t p Ht; by rewrite !decide_False by (by intros [? _])|].
  split; [intros t Ht; by rewrite decide_False|].
  reflexivity.
Qed.

(** X2: when the file does not decode, [readTexture] creates no texture:
    its only call to the graphics API is the selection of unit 0, made
    before the decoding, and nothing else in the context changes. *)
Theorem X2_readTexture_failure filename w :
  (lodepng_decode filename).1 <> 0 ->
  exists w' new,
    readTexture filename w = (0, w')
    /\ trace w' = trace w ++ new
    /\ gl_calls new = [ glActiveTexture 0 ]
    /\ active_unit w'
       = (if decide (0 <= 0 < GL_MAX_TEXTURE_UNITS) then 0 else active_unit w)
    /\ next_texture w' = next_texture w
    /\ binding w' = binding w
    /\ tex_param w' = tex_param w
    /\ tex_image w' = tex_image w
    /\ enabled w' = enabled w.
Proof.
  intros Herr. rewrite (readTexture_error filename w Herr).
  eexists _, _. split; [reflexivity|].
  rewrite !trace_emits, trace_gl, trace_emits, <- !app_assoc.
  split; [reflexivity|]. split; [reflexivity|].
  cbn [gl gl_effect emit emits trace active_unit binding tex_param tex_image
       next_texture enabled].
  by case_decide.
Qed.

(** X3: a mesh whose material declares no diffuse texture is stored with no
    texture handle; [processMesh] then calls neither the loader nor the
    graphics API and leaves the texture cache as it was. *)
Theorem X3_mesh_without_texture sp sc pm material w m :
  shaderprogram m = Some sp ->
  mMaterials sc !! mMaterialIndex pm = Some material ->
  GetTexture_DIFFUSE material 0 = None ->
  exists w' m' x new,
    processMesh (Some pm) sc (mkState w m) = Some (tt, mkState w' m')
    /\ meshes m' = meshes m ++ [x]
    /\ mesh x = pm
    /\ meshTextures x = []
    /\ loadedTextures m' = loadedTextures m
    /\ trace w' = trace w ++ new
    /\ readTexture_calls new = []
    /\ gl_calls new = []
    /\ cerr_lines new = [].
Proof.
  intros Hsp Hmat Hnone.
  rewrite (processMesh_Some sp sc pm material w m Hsp Hmat), Hnone.
  cbv zeta. eexists _, _, _, _. split; [reflexivity|].
  split; [reflexivity|]. split; [reflexivity|]. split; [reflexivity|].
  split; [reflexivity|]. split; [apply trace_emits|].
  pose proof (attrib_events_other
                (map texCoord_name (seq 0 (GetNumUVChannels pm))))
    as (_ & Hr & _ & Hc).
  rewrite map_map in Hr, Hc.
  change (EvProcessMesh (Some pm) :: ?l) with ([EvProcessMesh (Some pm)] ++ l).
  rewrite readTexture_calls_app, gl_calls_app, cerr_lines_app, Hr, Hc.
  split; [reflexivity|]. split; [|reflexivity].
  simpl. generalize (seq 0 (GetNumUVChannels pm)).
  intros l. induction l as [|i l IH]; [done|exact IH].
Qed.

(** X4: the meshes that a load stores are, in the order of the walk, the
    mesh records behind the pointers that are not null (a record met twice
    is stored twice). Each is stored with its flattened indices, with the
    locations of texCoord0.. in the shader program passed to this load, and
    with at most one texture handle: the one cached for its path, or none
    if its material has no diffuse texture. *)
Theorem X4_stored_meshes pFile sp sc s :
  ReadFile pFile importer_flags = inl sc ->
  mNumMeshes sc <> 0%nat ->
  scene_ok sc ->
  exists s' added,
    loadModel pFile sp s = Some (tt, s')
    /\ meshes (this s') = meshes (this s) ++ added
    /\ map mesh added = nonnull_meshes sc (visited_refs (mRootNode sc))
    /\ forall x,
         x ∈ added ->
         indices x = concat (map mIndices (mFaces (mesh x)))
         /\ texCoordsAttributes x
            = map (fun i => a sp ("texCoord" +:+ to_string i))
                  (seq 0 (GetNumUVChannels (mesh x)))
         /\ meshTextures x
            = match texture_path sc (mesh x) with
              | Some path => option_list (loadedTextures (this s') !! path)
              | None => []
              end
         /\ (length (meshTextures x) <= 1)%nat.
Proof.
  intros Hr Hn Hok.
  destruct (loaded_state_facts pFile sp sc s) as (new & added & Hm & Hst & _).
  exists (loaded_state pFile sp sc s), added.
  split; [by apply loadModel_walks|]. split; [exact Hm|].
  split; [by apply (stored_for_meshes sp sc _ _ _ Hst)|].
  intros x Hx. clear Hm.
  induction Hst as [|y pm added pms (Hmesh & Hidx & Hloc & Htex) _ IH].
  - by apply elem_of_nil in Hx.
  - apply elem_of_cons in Hx as [->|Hx]; [|by apply IH].
    rewrite Hmesh. split; [exact Hidx|]. split; [exact Hloc|].
    split; [exact Htex|]. rewrite Htex.
    destruct (texture_path sc pm) as [path|]; [|simpl; lia].
    destruct (loadedTextures (this (loaded_state pFile sp sc s)) !! path);
      simpl; lia.
Qed.

(** X5: after a load, a path is in the texture cache exactly if it was
    there before or is the first diffuse texture of the material of a mesh
    that the walk met. *)
Theorem X5_cached_paths pFile sp sc s :
  ReadFile pFile importer_flags = inl sc ->
  mNumMeshes sc <> 0%nat ->
  scene_ok sc ->
  exists s',
    loadModel pFile sp s = Some (tt, s')
    /\ forall path,
         is_Some (loadedTextures (this s') !! path)
         <-> is_Some (loadedTextures (this s) !! path)
             \/ exists pm,
                  pm ∈ nonnull_meshes sc (visited_refs (mRootNode sc))
                  /\ texture_path sc pm = Some path.
Proof.
  intros Hr Hn Hok.
  destruct (loaded_state_facts pFile sp sc s)
    as (new & added & _ & _ & _ & Hdom & _).
  exists (loaded_state pFile sp sc s).
  split; [by apply loadModel_walks|].
  intros path. rewrite Hdom. unfold referenced_paths.
  by rewrite list_elem_of_omap.
Qed.

(** X6: [loadModel] sets the shader program of the Model before it calls
    the importer: after the call the Model refers to the program passed,
    also when the load fails, and its scene is the one imported, or null. *)
Theorem X6_shaderprogram_set pFile sp s :
  match ReadFile pFile importer_flags with
  | inl sc => mNumMeshes sc <> 0%nat -> scene_ok sc
  | inr _ => True
  end ->
  exists s',
    loadModel pFile sp s = Some (tt, s')
    /\ shaderprogram (this s') = Some sp
    /\ scene (this s')
       = match ReadFile pFile importer_flags with
         | inl sc => Some sc
         | inr _ => None
         end.
Proof.
  intros Hok.
  destruct (ReadFile pFile importer_flags) as [sc|error] eqn:Hr;
    [destruct (decide (mNumMeshes sc = 0%nat)) as [H0|Hn]|].
  - destruct s as [w m]. rewrite (loadModel_no_meshes pFile sp sc w m Hr H0).
    by eexists.
  - exists (loaded_state pFile sp sc s).
    split; [apply loadModel_walks; auto|].
    unfold loaded_state. cbv zeta. cbn [this].
    by rewrite steps_state_shaderprogram, steps_state_scene.
  - destruct s as [w m]. rewrite (loadModel_rejected pFile sp error w m Hr).
    by eexists.
Qed.

(** X8: [drawMesh] on a mesh changes the parameters of one texture only,
    the one bound to the selected unit when it is called, which is not the
    texture of the mesh bound later: its two wrap modes end as repeat. All
    other parameters, and all images, stay as they were. *)
Theorem X8_drawMesh_texture_parameters sp pm Mx w m :
  shaderprogram m = Some sp ->
  exists w',
    drawMesh (Some pm) Mx (mkState w m) = Some (tt, mkState w' m)
    /\ (forall t p,
          tex_param w' t p
          = if decide (t = binding w (active_unit w)
                       /\ (p = GL_TEXTURE_WRAP_S \/ p = GL_TEXTURE_WRAP_T))
            then GL_REPEAT
            else tex_param w t p)
    /\ tex_image w' = tex_image w
    /\ next_texture w' = next_texture w.
Proof.
  intros Hsp. exists (performs (drawMesh_events sp pm Mx) w).
  split; [by apply drawMesh_Some|].
  rewrite performs_replay, gl_calls_drawMesh. unfold calls_before_draw.
  cbn [emits tex_param tex_image next_texture].
  change ([?c1; ?c2; ?c3; ?c4; ?c5; ?c6; ?c7] ++ ?l)
    with ([c1; c2; c3; c4] ++ [c5; c6; c7] ++ l).
  rewrite <- !app_assoc, gl_replay_app.
  destruct (textures_replay_other _ (calls_after_wrap_other sp pm Mx)
              (gl_replay
                 [ glTexParameteri GL_TEXTURE_WRAP_S GL_CLAMP_TO_EDGE;
                   glTexParameteri GL_TEXTURE_WRAP_T GL_CLAMP_TO_EDGE;
                   glTexParameteri GL_TEXTURE_WRAP_S GL_REPEAT;
                   glTexParameteri GL_TEXTURE_WRAP_T GL_REPEAT ] w))
    as (Hp & Hi & Hn).
  rewrite Hp, Hi, Hn.
  split; [|done]. intros t p. simpl.
  repeat case_decide; try done; destruct p; (forget_environment; naive_solver).
Qed.

(** X9: when the draw call of [drawMesh] is issued, the normal array is
    enabled if its location is valid, and the vertex array is enabled if
    its location is valid and is none of the texture-coordinate locations
    of the mesh. When [drawMesh] returns, the vertex array, the normal
    array and the texture-coordinate arrays of the mesh are disabled, and
    no other array has changed. *)
Theorem X9_drawMesh_attribute_arrays sp pm Mx w m :
  shaderprogram m = Some sp ->
  exists w',
    drawMesh (Some pm) Mx (mkState w m) = Some (tt, mkState w' m)
    /\ (to_GLuint (a sp "normal") < GL_MAX_VERTEX_ATTRIBS ->
        to_GLuint (a sp "normal")
        ∈ enabled (gl_replay (calls_before_draw sp pm Mx) w))
    /\ (to_GLuint (a sp "vertex") < GL_MAX_VERTEX_ATTRIBS ->
        to_GLuint (a sp "vertex") ∉ to_GLuint <$> texCoordsAttributes pm ->
        to_GLuint (a sp "vertex")
        ∈ enabled (gl_replay (calls_before_draw sp pm Mx) w))
    /\ enabled w'
       = enabled w
         ∖ ({[ to_GLuint (a sp "vertex"); to_GLuint (a sp "normal") ]}
            ∪ list_to_set (to_GLuint <$> texCoordsAttributes pm)).
Proof.
  intros Hsp. exists (performs (drawMesh_events sp pm Mx) w).
  split; [by apply drawMesh_Some|].
  split; [|split].
  - intros Hn. rewrite enabled_at_draw.
    rewrite (decide_True (P := to_GLuint (a sp "normal") < _)) by done.
    forget_environment; set_solver.
  - intros Hv Hnot. rewrite enabled_at_draw.
    rewrite (decide_True (P := to_GLuint (a sp "vertex") < _)) by done.
    assert (to_GLuint (a sp "vertex")
            ∉ (list_to_set (to_GLuint <$> texCoordsAttributes pm) : gset Z))
      by (by rewrite elem_of_list_to_set).
    case_decide; (forget_environment; set_solver).
  - rewrite performs_replay, gl_calls_drawMesh.
    cbn [emits enabled]. rewrite gl_replay_app.
    pose proof (enabled_at_draw sp pm Mx w) as Hen.
    revert Hen. generalize (gl_replay (calls_before_draw sp pm Mx) w).
    intros W Hen. simpl. rewrite Hen.
    repeat case_decide; (forget_environment; set_solver).
Qed.

(** X10: [draw] issues one draw call for each stored mesh, in storage
    order, each over the index list of its mesh, and leaves the Model as it
    is. *)
Theorem X10_draw_one_call_per_mesh sp Mx w m :
  shaderprogram m = Some sp ->
  exists w' new,
    draw Mx (mkState w m) = Some (tt, mkState w' m)
    /\ trace w' = trace w ++ new
    /\ draw_calls new
       = map (fun pm => glDrawElements (to_GLsizei (length (indices pm)))
                                       (indices pm))
             (meshes m)
    /\ length (draw_calls new) = length (meshes m).
Proof.
  intros Hsp.
  exists (performs (flat_map (fun pm => drawMesh_events sp pm Mx) (meshes m)) w),
         (flat_map (fun pm => drawMesh_events sp pm Mx) (meshes m)).
  split; [by apply draw_does|]. split; [apply trace_performs|].
  assert (Hd : draw_calls (flat_map (fun pm => drawMesh_events sp pm Mx) (meshes m))
               = map (fun pm => glDrawElements (to_GLsizei (length (indices pm)))
                                               (indices pm))
                     (meshes m)).
  { induction (meshes m) as [|pm l IH]; [done|].
    cbn [flat_map map]. by rewrite draw_calls_app, draw_calls_drawMesh, IH. }
  split; [exact Hd|]. by rewrite Hd, length_map.
Qed.

(** X11: a load issues no draw call, leaves the enabled attribute arrays
    as they are, and alters no texture that existed before it: the images
    and parameters of the names handed out earlier are unchanged. *)
Theorem X11_load_leaves_context pFile sp s :
  file_ok pFile ->
  exists s' new,
    loadModel pFile sp s = Some (tt, s')
    /\ trace (world s') = trace (world s) ++ new
    /\ draw_calls new = []
    /\ enabled (world s') = enabled (world s)
    /\ next_texture (world s) <= next_texture (world s')
    /\ forall t,
         t < next_texture (world s) ->
         tex_image (world s') t = tex_image (world s) t
         /\ forall p, tex_param (world s') t p = tex_param (world s) t p.
Proof.
  unfold file_ok. intros Hok.
  destruct (ReadFile pFile importer_flags) as [sc|error] eqn:Hr;
    [destruct (decide (mNumMeshes sc = 0%nat)) as [H0|Hn]|].
  - destruct s as [w m]. rewrite (loadModel_no_meshes pFile sp sc w m Hr H0).
    eexists _, _. split; [reflexivity|]. split; [reflexivity|].
    split; [reflexivity|]. split; [reflexivity|]. split; [simpl; lia|].
    by intros t _.
  - destruct (loaded_state_facts pFile sp sc s)
      as (new & added & _ & _ & _ & _ & Ht & _ & Hd & _).
    destruct (loaded_state_keeps pFile sp sc s) as (Hnext & Hen & Htex).
    exists (loaded_state pFile sp sc s), new.
    split; [apply loadModel_walks; auto|].
    split; [exact Ht|]. split; [exact Hd|]. split; [exact Hen|].
    split; [exact Hnext|exact Htex].
  - destruct s as [w m]. rewrite (loadModel_rejected pFile sp error w m Hr).
    eexists _, _. split; [reflexivity|]. split; [reflexivity|].
    split; [reflexivity|]. split; [reflexivity|]. split; [simpl; lia|].
    by intros t _.
Qed.

(** X12: over any number of loads on one Model, the loader is called once
    for each path that ends up in the cache and never for another path,
    the meshes stored first stay first, and no cache entry changes. The
    Model starts in a state where the cache accounts for the loader calls,
    as a new Model does. *)
Theorem X12_loads_keep_account calls :
  forall s,
    Forall (fun c => file_ok c.1) calls ->
    cache_accounts_for_loads s ->
    exists s' added,
      loads calls s = Some (tt, s')
      /\ cache_accounts_for_loads s'
      /\ meshes (this s') = meshes (this s) ++ added
      /\ loadedTextures (this s) ⊆ loadedTextures (this s').
Proof.
  unfold loads. generalize 0%nat.
  induction calls as [|[pFile sp] calls IH]; intros k s Hok Hinv.
  - exists s, []. split; [done|]. split; [done|]. by rewrite app_nil_r.
  - apply Forall_cons in Hok as [Hfile Hok]. cbn [fst] in Hfile.
    destruct (loadModel_returns pFile sp s Hfile) as [s1 Hrun].
    destruct (loadModel_keeps_account pFile sp s s1 Hrun Hinv)
      as (Hinv1 & [added1 Hm1] & Hsub1).
    destruct (IH (S k) s1 Hok Hinv1) as (s' & added & Hrest & Hinv' & Hm & Hsub).
    exists s', (added1 ++ added).
    split; [|split; [done|split]].
    + rewrite for_each_unit_cons. cbn [fst snd].
      by rewrite (bind_Some _ _ _ _ _ Hrun).
    + by rewrite Hm, Hm1, <- app_assoc.
    + by etrans.
Qed.

(** X13: [drawMesh] leaves texture [j] of the mesh bound on unit [j], the
    other units as they were, and the last unit it used selected; a mesh
    without textures leaves the selection as it was. The number of
    textures is within the units of the implementation. *)
Theorem X13_drawMesh_texture_units sp pm Mx w m :
  shaderprogram m = Some sp ->
  Z.of_nat (length (meshTextures pm)) <= GL_MAX_TEXTURE_UNITS ->
  exists w',
    drawMesh (Some pm) Mx (mkState w m) = Some (tt, mkState w' m)
    /\ (forall j tex,
          meshTextures pm !! j = Some tex -> binding w' (Z.of_nat j) = tex)
    /\ (forall unit,
          ~ (0 <= unit < Z.of_nat (length (meshTextures pm))) ->
          binding w' unit = binding w unit)
    /\ active_unit w'
       = match meshTextures pm with
         | [] => active_unit w
         | _ => Z.of_nat (length (meshTextures pm)) - 1
         end.
Proof.
  intros Hsp Hmax. exists (performs (drawMesh_events sp pm Mx) w).
  split; [by apply drawMesh_Some|].
  rewrite performs_replay, gl_calls_drawMesh_textures.
  cbn [emits active_unit binding]. rewrite !gl_replay_app.
  destruct (bindings_replay_other _ (calls_before_textures_other sp pm Mx) w)
    as (Ha1 & Hb1).
  destruct (bindings_textures sp (meshTextures pm) 0%nat
              (gl_replay (calls_before_textures sp pm Mx) w) ltac:(simpl; lia))
    as (Hj & Hout & Hact).
  destruct (bindings_replay_other _ (calls_after_textures_other sp pm)
              (gl_replay (texture_calls sp 0 (meshTextures pm))
                 (gl_replay (calls_before_textures sp pm Mx) w)))
    as (Ha2 & Hb2).
  rewrite Ha2, Hb2.
  split; [|split].
  - intros j tex Hlk. exact (Hj j tex Hlk).
  - intros unit Hu. rewrite Hout by (simpl; lia). by rewrite Hb1.
  - rewrite Hact, Ha1. destruct (meshTextures pm); [done|]. simpl Z.of_nat. lia.
Qed.

(** X14: a load that walks a scene first asks the importer for the file,
    with the flags for tangent space, triangulation, joined vertices and
    sorting by primitive type (0x800b), then writes that the model was
    loaded; the last thing it writes is the number of all the meshes that
    the Model holds, those of earlier loads included. *)
Theorem X14_load_messages pFile sp sc s :
  ReadFile pFile importer_flags = inl sc ->
  mNumMeshes sc <> 0%nat ->
  scene_ok sc ->
  exists s' mid,
    loadModel pFile sp s = Some (tt, s')
    /\ trace (world s')
       = trace (world s)
         ++ EvReadFile pFile 0x800b
         :: EvCout ("Model loaded successfully: " +:+ pFile)
         :: mid
         ++ [ EvCout ("Number of meshes processed: "
                      +:+ to_string (length (meshes (this s')))) ]
    /\ length (meshes (this s'))
       = (length (meshes (this s))
          + length (nonnull_meshes sc (visited_refs (mRootNode sc))))%nat.
Proof.
  intros Hr Hn Hok.
  destruct (loaded_state_facts pFile sp sc s) as (new & added & Hm & Hst & _).
  set (s0 := mkState (emits [ EvReadFile pFile importer_flags;
                              EvCout ("Model loaded successfully: " +:+ pFile) ]
                        (world s))
                     (set_scene (Some sc) (set_shaderprogram sp (this s)))).
  destruct (steps_state_trace sp sc (script (mRootNode sc) []) s0)
    as (mid & Ht & _).
  exists (loaded_state pFile sp sc s), mid.
  split; [by apply loadModel_walks|]. split.
  - unfold loaded_state. cbv zeta. cbn [world this]. fold s0.
    rewrite trace_emits, Ht. unfold s0. cbn [world]. rewrite trace_emits.
    rewrite <- !app_assoc. reflexivity.
  - rewrite Hm, length_app. f_equal. by apply Forall2_length in Hst.
Qed.

End Program.

(** * The claims on the small scene *)

Ltac scene_is_ok := split; repeat econstructor.

(** C1 on the small scene: a new Model holds two meshes after the load. *)
Lemma C1_witness :
  ex_ReadFile "maze.obj" importer_flags = inl ex_scene
  /\ mNumMeshes ex_scene <> 0%nat
  /\ scene_ok ex_scene
  /\ exists s',
       loadModel 16 32 ex_ReadFile ex_decode ex_error_text "maze.obj" ex_sp ex_state
       = Some (tt, s')
       /\ length (meshes (this s')) = 2%nat
       /\ sum_mNumMeshes (mRootNode ex_scene) = 2%nat.
Proof.
  split; [reflexivity|]. split; [done|]. split; [scene_is_ok|].
  destruct (C1_mesh_count 16 32 ex_ReadFile ex_decode ex_error_text
              "maze.obj" ex_sp ex_scene ex_state)
    as (s' & Hload & Hlen & _); [reflexivity|done|scene_is_ok|].
  exists s'. split; [exact Hload|]. split; [exact Hlen|reflexivity].
Defined.

(** C1 as stated fails on a Model that holds meshes: after a second load of
    the same file the Model holds four meshes, and the sum of mNumMeshes
    over the nodes is two. *)
Lemma C1_counterexample :
  exists s1 s2,
    loadModel 16 32 ex_ReadFile ex_decode ex_error_text "maze.obj" ex_sp ex_state
    = Some (tt, s1)
    /\ loadModel 16 32 ex_ReadFile ex_decode ex_error_text "maze.obj" ex_sp s1
       = Some (tt, s2)
    /\ mNumMeshes ex_scene = 2%nat
    /\ sum_mNumMeshes (mRootNode ex_scene) = 2%nat
    /\ length (meshes (this s2)) = 4%nat
    /\ length (meshes (this s2)) <> sum_mNumMeshes (mRootNode ex_scene).
Proof.
  eexists _, _. split; [vm_compute; reflexivity|].
  split; [vm_compute; reflexivity|].
  split; [reflexivity|]. split; [reflexivity|]. split; [reflexivity|].
  vm_compute. discriminate.
Qed.

(** C2 on a stored mesh whose list holds location 2, with the normal
    attribute at location 1: location 2 is not enabled at the draw call. *)
Lemma C2_witness :
  shaderprogram ex_model_stored = Some ex_sp
  /\ exists w' new,
       drawMesh 16 32 (Some ex_stored) ex_identity (mkState ex_world ex_model_stored)
       = Some (tt, mkState w' ex_model_stored)
       /\ trace w' = trace ex_world ++ new
       /\ gl_calls new
          = calls_before_draw ex_sp ex_stored ex_identity
            ++ glDrawElements (to_GLsizei (length (indices ex_stored)))
                              (indices ex_stored)
            :: calls_after_draw ex_sp
       /\ (forall attr,
             attr ∈ texCoordsAttributes ex_stored ->
             to_GLuint attr
             ∈ enabled (gl_replay 16 32
                          (calls_before_draw ex_sp ex_stored ex_identity) ex_world)
             <-> to_GLuint attr = to_GLuint (a ex_sp "normal")
                 /\ to_GLuint (a ex_sp "normal") < 16)
       /\ (forall attr,
             attr ∈ texCoordsAttributes ex_stored ->
             to_GLuint attr
             ∉ enabled (gl_replay 16 32
                          (calls_before_draw ex_sp ex_stored ex_identity) ex_world)).
Proof.
  split; [reflexivity|].
  destruct (C2_texcoords_at_draw_call 16 32 ex_sp ex_stored ex_identity
              ex_world ex_model_stored)
    as (w' & new & Hrun & Ht & Hc & _ & _ & Hiff & Hnone); [reflexivity|].
  exists w', new. split; [exact Hrun|]. split; [exact Ht|].
  split; [exact Hc|]. split; [exact Hiff|].
  apply Hnone. left. vm_compute. intros H.
  apply list_elem_of_singleton in H. discriminate.
Defined.

(** C2 as stated fails when a location of the list is the one that the
    current shader program gives for the normal attribute. The stored mesh
    holds location 2, recorded for texCoord0 under [ex_sp] by the load that
    stored it; a later load, here one that the importer rejects, has set the
    Model's program to [ex_sp_other], whose normal attribute is at
    location 2.
    [drawMesh] disables location 2 in its loop and enables it again for the
    normals before the draw call: a location of the list is enabled when
    the draw call is issued. *)
Lemma C2_counterexample :
  exists w',
    drawMesh 16 32 (Some ex_stored) ex_identity (mkState ex_world ex_model_other)
    = Some (tt, mkState w' ex_model_other)
    /\ (exists s1 s2,
          loadModel 16 32 ex_ReadFile ex_decode ex_error_text "maze.obj" ex_sp ex_state
          = Some (tt, s1)
          /\ loadModel 16 32 ex_ReadFile ex_decode ex_error_text "missing.obj"
               ex_sp_other s1
             = Some (tt, s2)
          /\ shaderprogram (this s2) = shaderprogram ex_model_other
          /\ meshes (this s2) !! 0%nat = Some ex_stored)
    /\ shaderprogram ex_model_other = Some ex_sp_other
    /\ a ex_sp "texCoord0" = 2
    /\ texCoordsAttributes ex_stored = [2]
    /\ a ex_sp_other "vertex" = 0
    /\ a ex_sp_other "texCoord0" = 1
    /\ a ex_sp_other "normal" = 2
    /\ gl_calls (drop (length (trace ex_world)) (trace w'))
       = calls_before_draw ex_sp_other ex_stored ex_identity
         ++ glDrawElements 6 [0; 1; 2; 2; 1; 3]
         :: calls_after_draw ex_sp_other
    /\ calls_before_draw ex_sp_other ex_stored ex_identity
       = [ glTexParameteri GL_TEXTURE_WRAP_S GL_CLAMP_TO_EDGE;
           glTexParameteri GL_TEXTURE_WRAP_T GL_CLAMP_TO_EDGE;
           glTexParameteri GL_TEXTURE_WRAP_S GL_REPEAT;
           glTexParameteri GL_TEXTURE_WRAP_T GL_REPEAT;
           glUniformMatrix4fv 0 ex_identity;
           glEnableVertexAttribArray 0;
           glVertexAttribPointer 0 3 (Some ex_square);
           glEnableVertexAttribArray 2;
           glVertexAttribPointer 2 2 (Some ex_square);
           glDisableVertexAttribArray 2;
           glActiveTexture 0;
           glBindTexture 1;
           glUniform1i 1 0;
           glEnableVertexAttribArray 2;
           glVertexAttribPointer 2 3 (Some ex_up) ]
    /\ 2 ∈ texCoordsAttributes ex_stored
    /\ to_GLuint 2
       ∈ enabled (gl_replay 16 32
                    (calls_before_draw ex_sp_other ex_stored ex_identity) ex_world).
Proof.
  eexists. split; [vm_compute; reflexivity|].
  split.
  { eexists _, _. split; [vm_compute; reflexivity|].
    split; [vm_compute; reflexivity|]. split; reflexivity. }
  split; [reflexivity|]. split; [reflexivity|]. split; [reflexivity|].
  split; [reflexivity|]. split; [reflexivity|]. split; [reflexivity|].
  split; [vm_compute; reflexivity|]. split; [vm_compute; reflexivity|].
  split; [apply list_elem_of_here|].
  apply texcoord_enabled_at_draw; [apply list_elem_of_here|].
  split; [reflexivity|]. vm_compute. reflexivity.
Qed.

(** C3 on the small scene: both meshes refer to wall.png; a new Model
    stores them with the handle of the one texture it creates, and the
    loader is called once. *)
Lemma C3_witness :
  ex_ReadFile "maze.obj" importer_flags = inl ex_scene
  /\ mNumMeshes ex_scene <> 0%nat
  /\ scene_ok ex_scene
  /\ exists s' x y new,
       loadModel 16 32 ex_ReadFile ex_decode ex_error_text "maze.obj" ex_sp ex_state
       = Some (tt, s')
       /\ meshes (this s') = [x; y]
       /\ mesh x = ex_wall
       /\ mesh y = ex_floor
       /\ texture_path ex_scene ex_wall = Some "wall.png"
       /\ texture_path ex_scene ex_floor = Some "wall.png"
       /\ trace (world s') = trace (world ex_state) ++ new
       /\ (exists tex,
             meshTextures x = [tex]
             /\ meshTextures y = [tex]
             /\ loadedTextures (this s') !! "wall.png" = Some tex)
       /\ times_read "wall.png" new = 1%nat.
Proof.
  split; [reflexivity|]. split; [done|]. split; [scene_is_ok|].
  destruct (C3_shared_path_shared_handle 16 32 ex_ReadFile ex_decode ex_error_text
              "maze.obj" ex_sp ex_scene ex_state)
    as (s' & added & new & Hload & Hm & Hmesh & Ht & Hsame);
    [reflexivity|done|scene_is_ok|].
  destruct added as [|x [|y [|z added]]]; try discriminate Hmesh.
  injection Hmesh as Hx Hy.
  exists s', x, y, new.
  split; [exact Hload|]. split; [exact Hm|]. split; [exact Hx|].
  split; [exact Hy|]. split; [reflexivity|]. split; [reflexivity|].
  split; [exact Ht|].
  apply (Hsame 0%nat 1%nat x y "wall.png");
    [lia|reflexivity|reflexivity|by rewrite Hx|by rewrite Hy].
Defined.

(** C3 as stated fails on a Model whose cache holds the path: in a second
    load of the same file both meshes refer to wall.png, and during that
    call the loader is not called at all. *)
Lemma C3_counterexample :
  exists s1 s2 x y new,
    loadModel 16 32 ex_ReadFile ex_decode ex_error_text "maze.obj" ex_sp ex_state
    = Some (tt, s1)
    /\ loadModel 16 32 ex_ReadFile ex_decode ex_error_text "maze.obj" ex_sp s1
       = Some (tt, s2)
    /\ meshes (this s2) = meshes (this s1) ++ [x; y]
    /\ texture_path ex_scene (mesh x) = Some "wall.png"
    /\ texture_path ex_scene (mesh y) = Some "wall.png"
    /\ meshTextures x = meshTextures y
    /\ trace (world s2) = trace (world s1) ++ new
    /\ readTexture_calls new = []
    /\ times_read "wall.png" new = 0%nat
    /\ times_read "wall.png" new <> 1%nat.
Proof.
  eexists _, _, _, _, _. split; [vm_compute; reflexivity|].
  split; [vm_compute; reflexivity|].
  split; [vm_compute; reflexivity|].
  split; [reflexivity|]. split; [reflexivity|]. split; [reflexivity|].
  split; [vm_compute; reflexivity|].
  split; [reflexivity|]. split; [reflexivity|].
  vm_compute. discriminate.
Qed.

(** C4 on a file that the importer rejects, with a new Model. *)
Lemma C4_witness :
  match ex_ReadFile "missing.obj" importer_flags with
  | inl sc => mNumMeshes sc = 0%nat
  | inr _ => True
  end
  /\ exists s' new,
       loadModel 16 32 ex_ReadFile ex_decode ex_error_text "missing.obj" ex_sp ex_state
       = Some (tt, s')
       /\ meshes (this s') = []
       /\ trace (world s') = trace (world ex_state) ++ new
       /\ cerr_lines new = ["Error loading model: Unable to open file."]
       /\ forall Mx, draw 16 32 Mx s' = Some (tt, s').
Proof.
  split; [exact I|].
  destruct (C4_failed_load 16 32 ex_ReadFile ex_decode ex_error_text
              "missing.obj" ex_sp ex_state I)
    as (s' & new & Hload & Hm & _ & Ht & Hline & _ & Hdraw).
  exists s', new. split; [exact Hload|]. split; [exact Hm|].
  split; [exact Ht|]. split; [exact Hline|]. apply Hdraw. reflexivity.
Defined.

(** C4 as stated fails on a Model that holds meshes: after a load that
    stored two meshes, a load that the importer rejects writes its failure
    and leaves the two meshes in the Model. *)
Lemma C4_counterexample :
  exists s1 s2,
    loadModel 16 32 ex_ReadFile ex_decode ex_error_text "maze.obj" ex_sp ex_state
    = Some (tt, s1)
    /\ ex_ReadFile "missing.obj" importer_flags = inr "Unable to open file."
    /\ loadModel 16 32 ex_ReadFile ex_decode ex_error_text "missing.obj" ex_sp s1
       = Some (tt, s2)
    /\ cerr_lines (drop (length (trace (world s1))) (trace (world s2)))
       = ["Error loading model: Unable to open file."]
    /\ length (meshes (this s2)) = 2%nat
    /\ meshes (this s2) <> [].
Proof.
  eexists _, _. split; [vm_compute; reflexivity|].
  split; [reflexivity|]. split; [vm_compute; reflexivity|].
  split; [reflexivity|]. split; [reflexivity|]. vm_compute. discriminate.
Qed.

(** C5 on the wall mesh: two triangles, six indices. *)
Lemma C5_witness :
  shaderprogram ex_model = Some ex_sp
  /\ mMaterials ex_scene !! mMaterialIndex ex_wall = Some (mkMaterial ["wall.png"])
  /\ exists w' m' x,
       processMesh 16 32 ex_decode ex_error_text (Some ex_wall) ex_scene
         (mkState ex_world ex_model)
       = Some (tt, mkState w' m')
       /\ meshes m' = meshes ex_model ++ [x]
       /\ mesh x = ex_wall
       /\ indices x = concat (map mIndices (mFaces ex_wall))
       /\ length (indices x) = sum_list (map mNumIndices (mFaces ex_wall)).
Proof.
  split; [reflexivity|]. split; [reflexivity|].
  apply (C5_indices_flattened 16 32 ex_decode ex_error_text ex_sp ex_scene
           ex_wall (mkMaterial ["wall.png"]) ex_world ex_model); reflexivity.
Defined.

(** C6 with a decoder that finds no file: the load of the small scene
    stores both meshes with handle 0. *)
Lemma C6_witness :
  (ex_decode_broken "wall.png").1 <> 0
  /\ ((readTexture 16 32 ex_decode_broken ex_error_text "wall.png" ex_world).1 = 0
      /\ trace (readTexture 16 32 ex_decode_broken ex_error_text "wall.png" ex_world).2
         = trace ex_world
           ++ [ EvReadTexture "wall.png"; EvGL (glActiveTexture 0);
                EvDecode "wall.png";
                EvCerr ("Error loading texture: "
                        +:+ ex_error_text (ex_decode_broken "wall.png").1) ])
  /\ exists s' added new,
       loadModel 16 32 ex_ReadFile ex_decode_broken ex_error_text "maze.obj" ex_sp
         ex_state
       = Some (tt, s')
       /\ meshes (this s') = meshes (this ex_state) ++ added
       /\ map mesh added = nonnull_meshes ex_scene (visited_refs (mRootNode ex_scene))
       /\ trace (world s') = trace (world ex_state) ++ new
       /\ ("Error loading texture: "
           +:+ ex_error_text (ex_decode_broken "wall.png").1) ∈ cerr_lines new
       /\ times_read "wall.png" new = 1%nat
       /\ loadedTextures (this s') !! "wall.png" = Some 0
       /\ forall x,
            x ∈ added ->
            texture_path ex_scene (mesh x) = Some "wall.png" ->
            meshTextures x = [0].
Proof.
  assert (Herr : (ex_decode_broken "wall.png").1 <> 0) by done.
  split; [exact Herr|].
  destruct (C6_decode_failure 16 32 ex_ReadFile ex_decode_broken ex_error_text
              "wall.png" Herr) as [Hread Hload].
  split; [apply Hread|].
  apply (Hload "maze.obj" ex_sp ex_scene ex_state);
    [reflexivity|done|scene_is_ok|reflexivity|].
  vm_compute. apply list_elem_of_here.
Defined.

(** C7 on the wall mesh: one UV channel, one look-up. *)
Lemma C7_witness :
  shaderprogram ex_model = Some ex_sp
  /\ mMaterials ex_scene !! mMaterialIndex ex_wall = Some (mkMaterial ["wall.png"])
  /\ exists w' m' x new,
       processMesh 16 32 ex_decode ex_error_text (Some ex_wall) ex_scene
         (mkState ex_world ex_model)
       = Some (tt, mkState w' m')
       /\ meshes m' = meshes ex_model ++ [x]
       /\ trace w' = trace ex_world ++ new
       /\ attrib_lookups new = ["texCoord0"]
       /\ texCoordsAttributes x = [2]
       /\ length (attrib_lookups new) = 1%nat
       /\ length (texCoordsAttributes x) = 1%nat.
Proof.
  split; [reflexivity|]. split; [reflexivity|].
  apply (C7_texcoord_locations 16 32 ex_decode ex_error_text ex_sp ex_scene
           ex_wall (mkMaterial ["wall.png"]) ex_world ex_model); reflexivity.
Defined.

(** C8 on the small scene: the root, its mesh, the child, its mesh. *)
Lemma C8_witness :
  ex_ReadFile "maze.obj" importer_flags = inl ex_scene
  /\ mNumMeshes ex_scene <> 0%nat
  /\ scene_ok ex_scene
  /\ exists s' new,
       loadModel 16 32 ex_ReadFile ex_decode ex_error_text "maze.obj" ex_sp ex_state
       = Some (tt, s')
       /\ trace (world s') = trace (world ex_state) ++ new
       /\ walk new
          = [ EvProcessNode []; EvProcessMesh (Some ex_wall);
              EvProcessNode [0%nat]; EvProcessMesh (Some ex_floor) ]
       /\ NoDup (node_visits new)
       /\ forall addr,
            addr ∈ node_visits new <-> is_Some (subnode (mRootNode ex_scene) addr).
Proof.
  split; [reflexivity|]. split; [done|]. split; [scene_is_ok|].
  destruct (C8_preorder_walk 16 32 ex_ReadFile ex_decode ex_error_text
              "maze.obj" ex_sp ex_scene ex_state)
    as (s' & new & Hload & Ht & Hw & _ & Hnd & Hin & _);
    [reflexivity|done|scene_is_ok|].
  exists s', new. split; [exact Hload|]. split; [exact Ht|].
  split; [exact Hw|]. split; [exact Hnd|exact Hin].
Defined.


(** * The further properties on the small scene *)

(** X1 on wall.png, in the initial context: the texture gets name 1. *)
Lemma X1_witness :
  ex_decode "wall.png" = (0, mkImage 1 1 [255; 255; 255; 255])
  /\ 0 < 32
  /\ exists w',
       readTexture 16 32 ex_decode ex_error_text "wall.png" ex_world = (1, w')
       /\ next_texture w' = 2
       /\ active_unit w' = 0
       /\ binding w' 0 = 1
       /\ tex_image w' 1 = Some (mkImage 1 1 [255; 255; 255; 255])
       /\ tex_param w' 1 GL_TEXTURE_MIN_FILTER = GL_LINEAR
       /\ tex_param w' 1 GL_TEXTURE_MAG_FILTER = GL_LINEAR
       /\ tex_param w' 1 GL_TEXTURE_WRAP_S = GL_REPEAT.
Proof.
  split; [reflexivity|]. split; [lia|].
  destruct (X1_readTexture_success 16 32 ex_decode ex_error_text "wall.png"
              (mkImage 1 1 [255; 255; 255; 255]) ex_world eq_refl ltac:(lia))
    as (tex & w' & new & Hr & -> & Hn & _ & _ & _ & Ha & Hb & _ & Hi & Hmin
        & Hmag & Hs & _).
  exists w'. split; [exact Hr|]. split; [exact Hn|]. split; [exact Ha|].
  split; [exact Hb|]. split; [exact Hi|]. split; [exact Hmin|].
  split; [exact Hmag|exact Hs].
Defined.

(** X2 with the decoder that finds no file. *)
Lemma X2_witness :
  (ex_decode_broken "wall.png").1 <> 0
  /\ exists w' new,
       readTexture 16 32 ex_decode_broken ex_error_text "wall.png" ex_world = (0, w')
       /\ trace w' = trace ex_world ++ new
       /\ gl_calls new = [ glActiveTexture 0 ]
       /\ next_texture w' = 1
       /\ binding w' = binding ex_world
       /\ tex_param w' = tex_param ex_world
       /\ tex_image w' = tex_image ex_world
       /\ enabled w' = enabled ex_world.
Proof.
  assert (Herr : (ex_decode_broken "wall.png").1 <> 0) by done.
  split; [exact Herr|].
  destruct (X2_readTexture_failure 16 32 ex_decode_broken ex_error_text
              "wall.png" ex_world Herr)
    as (w' & new & Hr & Ht & Hc & _ & Hn & Hb & Hp & Hi & He).
  exists w', new. split; [exact Hr|]. split; [exact Ht|]. split; [exact Hc|].
  split; [exact Hn|]. split; [exact Hb|]. split; [exact Hp|].
  split; [exact Hi|exact He].
Defined.

(** X3 on the wall mesh in the scene whose material has no texture. *)
Lemma X3_witness :
  shaderprogram ex_model = Some ex_sp
  /\ mMaterials ex_scene_plain !! mMaterialIndex ex_wall = Some (mkMaterial [])
  /\ GetTexture_DIFFUSE (mkMaterial []) 0 = None
  /\ exists w' m' x new,
       processMesh 16 32 ex_decode ex_error_text (Some ex_wall) ex_scene_plain
         (mkState ex_world ex_model)
       = Some (tt, mkState w' m')
       /\ meshes m' = meshes ex_model ++ [x]
       /\ mesh x = ex_wall
       /\ meshTextures x = []
       /\ loadedTextures m' = loadedTextures ex_model
       /\ trace w' = trace ex_world ++ new
       /\ readTexture_calls new = []
       /\ gl_calls new = []
       /\ cerr_lines new = [].
Proof.
  split; [reflexivity|]. split; [reflexivity|]. split; [reflexivity|].
  apply (X3_mesh_without_texture 16 32 ex_decode ex_error_text ex_sp
           ex_scene_plain ex_wall (mkMaterial []) ex_world ex_model);
    reflexivity.
Defined.

(** X4 on the small scene: the wall, then the floor. *)
Lemma X4_witness :
  ex_ReadFile "maze.obj" importer_flags = inl ex_scene
  /\ mNumMeshes ex_scene <> 0%nat
  /\ scene_ok ex_scene
  /\ exists s' added,
       loadModel 16 32 ex_ReadFile ex_decode ex_error_text "maze.obj" ex_sp ex_state
       = Some (tt, s')
       /\ meshes (this s') = added
       /\ map mesh added = [ ex_wall; ex_floor ]
       /\ forall x,
            x ∈ added ->
            indices x = concat (map mIndices (mFaces (mesh x)))
            /\ texCoordsAttributes x
               = map (fun i => a ex_sp ("texCoord" +:+ to_string i))
                     (seq 0 (GetNumUVChannels (mesh x)))
            /\ meshTextures x
               = match texture_path ex_scene (mesh x) with
                 | Some path => option_list (loadedTextures (this s') !! path)
                 | None => []
                 end
            /\ (length (meshTextures x) <= 1)%nat.
Proof.
  split; [reflexivity|]. split; [done|]. split; [scene_is_ok|].
  destruct (X4_stored_meshes 16 32 ex_ReadFile ex_decode ex_error_text
              "maze.obj" ex_sp ex_scene ex_state)
    as (s' & added & Hload & Hm & Hmap & Hall); [reflexivity|done|scene_is_ok|].
  exists s', added. split; [exact Hload|]. split; [exact Hm|].
  split; [exact Hmap|exact Hall].
Defined.

(** X5 on the small scene: wall.png is cached, floor.png is not. *)
Lemma X5_witness :
  ex_ReadFile "maze.obj" importer_flags = inl ex_scene
  /\ mNumMeshes ex_scene <> 0%nat
  /\ scene_ok ex_scene
  /\ exists s',
       loadModel 16 32 ex_ReadFile ex_decode ex_error_text "maze.obj" ex_sp ex_state
       = Some (tt, s')
       /\ is_Some (loadedTextures (this s') !! "wall.png")
       /\ forall path,
            is_Some (loadedTextures (this s') !! path)
            <-> is_Some (loadedTextures (this ex_state) !! path)
                \/ exists pm,
                     pm ∈ nonnull_meshes ex_scene (visited_refs (mRootNode ex_scene))
                     /\ texture_path ex_scene pm = Some path.
Proof.
  split; [reflexivity|]. split; [done|]. split; [scene_is_ok|].
  destruct (X5_cached_paths 16 32 ex_ReadFile ex_decode ex_error_text
              "maze.obj" ex_sp ex_scene ex_state)
    as (s' & Hload & Hdom); [reflexivity|done|scene_is_ok|].
  exists s'. split; [exact Hload|]. split; [|exact Hdom].
  apply Hdom. right. exists ex_wall. split; [|reflexivity].
  apply list_elem_of_here.
Defined.

(** X6 on the file that the importer rejects: the program is set all the
    same. *)
Lemma X6_witness :
  match ex_ReadFile "missing.obj" importer_flags with
  | inl sc => mNumMeshes sc <> 0%nat -> scene_ok sc
  | inr _ => True
  end
  /\ exists s',
       loadModel 16 32 ex_ReadFile ex_decode ex_error_text "missing.obj"
         ex_sp_aliased ex_state
       = Some (tt, s')
       /\ shaderprogram (this s') = Some ex_sp_aliased
       /\ scene (this s') = None.
Proof.
  split; [exact I|].
  apply (X6_shaderprogram_set 16 32 ex_ReadFile ex_decode ex_error_text
           "missing.obj" ex_sp_aliased ex_state I).
Defined.

(** X8 on the stored mesh, in the initial context: the default texture 0
    is the one whose wrap modes are set. *)
Lemma X8_witness :
  shaderprogram ex_model_stored = Some ex_sp
  /\ exists w',
       drawMesh 16 32 (Some ex_stored) ex_identity (mkState ex_world ex_model_stored)
       = Some (tt, mkState w' ex_model_stored)
       /\ (forall t p,
             tex_param w' t p
             = if decide (t = binding ex_world (active_unit ex_world)
                          /\ (p = GL_TEXTURE_WRAP_S \/ p = GL_TEXTURE_WRAP_T))
               then GL_REPEAT
               else tex_param ex_world t p)
       /\ tex_image w' = tex_image ex_world
       /\ next_texture w' = next_texture ex_world.
Proof.
  split; [reflexivity|].
  apply (X8_drawMesh_texture_parameters 16 32 ex_sp ex_stored ex_identity
           ex_world ex_model_stored); reflexivity.
Defined.

(** X9 on the stored mesh: vertex at 0, normal at 1, texCoord0 at 2. *)
Lemma X9_witness :
  shaderprogram ex_model_stored = Some ex_sp
  /\ to_GLuint (a ex_sp "normal") < 16
  /\ to_GLuint (a ex_sp "vertex") < 16
  /\ (to_GLuint (a ex_sp "vertex") ∉ to_GLuint <$> texCoordsAttributes ex_stored)
  /\ exists w',
       drawMesh 16 32 (Some ex_stored) ex_identity (mkState ex_world ex_model_stored)
       = Some (tt, mkState w' ex_model_stored)
       /\ to_GLuint (a ex_sp "normal")
          ∈ enabled (gl_replay 16 32 (calls_before_draw ex_sp ex_stored ex_identity)
                       ex_world)
       /\ to_GLuint (a ex_sp "vertex")
          ∈ enabled (gl_replay 16 32 (calls_before_draw ex_sp ex_stored ex_identity)
                       ex_world)
       /\ enabled w'
          = enabled ex_world
            ∖ ({[ to_GLuint (a ex_sp "vertex"); to_GLuint (a ex_sp "normal") ]}
               ∪ list_to_set (to_GLuint <$> texCoordsAttributes ex_stored)).
Proof.
  assert (Hn : to_GLuint (a ex_sp "normal") < 16) by (vm_compute; reflexivity).
  assert (Hv : to_GLuint (a ex_sp "vertex") < 16) by (vm_compute; reflexivity).
  assert (Hnot : to_GLuint (a ex_sp "vertex") ∉ to_GLuint <$> texCoordsAttributes ex_stored).
  { vm_compute. intros H. apply list_elem_of_singleton in H. discriminate. }
  split; [reflexivity|]. split; [exact Hn|]. split; [exact Hv|].
  split; [exact Hnot|].
  destruct (X9_drawMesh_attribute_arrays 16 32 ex_sp ex_stored ex_identity
              ex_world ex_model_stored eq_refl)
    as (w' & Hrun & Hnormal & Hvertex & Hend).
  exists w'. split; [exact Hrun|]. split; [exact (Hnormal Hn)|].
  split; [exact (Hvertex Hv Hnot)|exact Hend].
Defined.

(** X10 on a Model with one stored mesh. *)
Lemma X10_witness :
  shaderprogram ex_model_stored = Some ex_sp
  /\ exists w' new,
       draw 16 32 ex_identity (mkState ex_world ex_model_stored)
       = Some (tt, mkState w' ex_model_stored)
       /\ trace w' = trace ex_world ++ new
       /\ draw_calls new = [ glDrawElements 6 [0; 1; 2; 2; 1; 3] ]
       /\ length (draw_calls new) = 1%nat.
Proof.
  split; [reflexivity|].
  apply (X10_draw_one_call_per_mesh 16 32 ex_sp ex_identity ex_world
           ex_model_stored); reflexivity.
Defined.

(** X11 on the small scene. *)
Lemma X11_witness :
  file_ok ex_ReadFile "maze.obj"
  /\ exists s' new,
       loadModel 16 32 ex_ReadFile ex_decode ex_error_text "maze.obj" ex_sp ex_state
       = Some (tt, s')
       /\ trace (world s') = trace (world ex_state) ++ new
       /\ draw_calls new = []
       /\ enabled (world s') = enabled (world ex_state)
       /\ next_texture (world ex_state) <= next_texture (world s')
       /\ forall t,
            t < next_texture (world ex_state) ->
            tex_image (world s') t = tex_image (world ex_state) t
            /\ forall p, tex_param (world s') t p = tex_param (world ex_state) t p.
Proof.
  assert (Hok : file_ok ex_ReadFile "maze.obj") by (intros _; scene_is_ok).
  split; [exact Hok|].
  apply (X11_load_leaves_context 16 32 ex_ReadFile ex_decode ex_error_text
           "maze.obj" ex_sp ex_state Hok).
Defined.

(** X12 on three loads, the second of which fails. *)
Lemma X12_witness :
  Forall (fun c => file_ok ex_ReadFile c.1) ex_calls
  /\ cache_accounts_for_loads ex_state
  /\ exists s' added,
       loads 16 32 ex_ReadFile ex_decode ex_error_text ex_calls ex_state
       = Some (tt, s')
       /\ cache_accounts_for_loads s'
       /\ meshes (this s') = meshes (this ex_state) ++ added
       /\ loadedTextures (this ex_state) ⊆ loadedTextures (this s').
Proof.
  assert (Hok : Forall (fun c => file_ok ex_ReadFile c.1) ex_calls).
  { constructor; [intros _; scene_is_ok|].
    constructor; [exact I|].
    constructor; [intros _; scene_is_ok|constructor]. }
  assert (Hacc : cache_accounts_for_loads ex_state) by (intros path; reflexivity).
  split; [exact Hok|]. split; [exact Hacc|].
  apply (X12_loads_keep_account 16 32 ex_ReadFile ex_decode ex_error_text
           ex_calls ex_state Hok Hacc).
Defined.

(** X13 on the stored mesh: its texture 1 ends bound on unit 0. *)
Lemma X13_witness :
  shaderprogram ex_model_stored = Some ex_sp
  /\ Z.of_nat (length (meshTextures ex_stored)) <= 32
  /\ exists w',
       drawMesh 16 32 (Some ex_stored) ex_identity (mkState ex_world ex_model_stored)
       = Some (tt, mkState w' ex_model_stored)
       /\ binding w' 0 = 1
       /\ (forall unit, ~ (0 <= unit < 1) -> binding w' unit = binding ex_world unit)
       /\ active_unit w' = 0.
Proof.
  assert (Hmax : Z.of_nat (length (meshTextures ex_stored)) <= 32)
    by (vm_compute; discriminate).
  split; [reflexivity|]. split; [exact Hmax|].
  destruct (X13_drawMesh_texture_units 16 32 ex_sp ex_stored ex_identity
              ex_world ex_model_stored eq_refl Hmax)
    as (w' & Hrun & Hj & Hout & Hact).
  exists w'. split; [exact Hrun|]. split; [exact (Hj 0%nat 1 eq_refl)|].
  split; [exact Hout|exact Hact].
Defined.

(** X14 on the small scene, loaded a second time: the line gives four
    meshes. *)
Lemma X14_witness :
  ex_ReadFile "maze.obj" importer_flags = inl ex_scene
  /\ mNumMeshes ex_scene <> 0%nat
  /\ scene_ok ex_scene
  /\ exists s' mid,
       loadModel 16 32 ex_ReadFile ex_decode ex_error_text "maze.obj" ex_sp
         (loaded_state 16 32 ex_decode ex_error_text "maze.obj" ex_sp ex_scene ex_state)
       = Some (tt, s')
       /\ trace (world s')
          = trace (world (loaded_state 16 32 ex_decode ex_error_text "maze.obj"
                            ex_sp ex_scene ex_state))
            ++ EvReadFile "maze.obj" 0x800b
            :: EvCout "Model loaded successfully: maze.obj"
            :: mid
            ++ [ EvCout ("Number of meshes processed: "
                         +:+ to_string (length (meshes (this s')))) ]
       /\ length (meshes (this s')) = 4%nat.
Proof.
  split; [reflexivity|]. split; [done|]. split; [scene_is_ok|].
  destruct (X14_load_messages 16 32 ex_ReadFile ex_decode ex_error_text
              "maze.obj" ex_sp ex_scene
              (loaded_state 16 32 ex_decode ex_error_text "maze.obj" ex_sp
                            ex_scene ex_state))
    as (s' & mid & Hload & Ht & Hlen); [reflexivity|done|scene_is_ok|].
  exists s', mid. split; [exact Hload|]. split; [exact Ht|].
  rewrite Hlen. reflexivity.
Defined.
